(** * OpenChamp MMServer: connection hub and per-connection authentication

    A shallow embedding of [internal/websocket] (the client manager, the
    packet dispatcher and the registration / token handlers),
    [internal/util.IsValidEmail] and the schema of [internal/database],
    followed by the properties of the specification.

    Conventions.
    - Go strings are byte strings: [string] with [String.length] for [len].
    - A [*Client] is an address ([ptr]); the registry [map[*Client]bool] is a
      [gmap ptr bool].
    - Library calls whose code is outside the repository (JSON decoding,
      bcrypt, uuid, net.SplitHostPort, the SQL engine) are modelled by their
      documented contract or taken from an explicit oracle. *)

From Stdlib Require Import String Ascii List ZArith Bool Lia DecimalString.
From stdpp Require Import base option list functions gmap strings.
Import ListNotations.

Local Open Scope string_scope.
Local Open Scope Z_scope.

(* ===================================================================== *)
(** ** encoding/json at the level of JSON values *)
(* ===================================================================== *)

Module Json.

(** A JSON document.  An object keeps its members in textual order, with
    duplicates, because the decoder visits them in that order. *)
#[warnings="-register-all"]
Inductive json : Type :=
| JNull
| JBool (b : bool)
| JNum (n : Z)
| JStr (s : string)
| JArr (items : list json)
| JObj (members : list (string * json)).

(** The error values the handlers can observe. *)
Inductive error : Type :=
| SyntaxError            (* json: input is not a JSON document *)
| UnmarshalTypeError     (* json: value does not fit the Go field *)
| ErrNoRows              (* pgx/v5: what the pool's Scan returns on no row *)
| pgx_ErrNoRows          (* github.com/jackc/pgx: the package websocket.go
                            imports and names as pgx.ErrNoRows; the pgx/v5
                            pool never returns this value *)
| ErrStore               (* any other failure reported by the store *)
| ErrBcrypt.             (* bcrypt.GenerateFromPassword failed *)

(** Kinds of struct fields that occur in the decoded structs. *)
Inductive fkind : Type := KString | KRaw.

(** A field value: a Go [string], or a [json.RawMessage] ([None] is the nil
    slice). *)
Inductive fval : Type :=
| FString (s : string)
| FRaw (raw : option json).

(** A struct under decoding: its fields by JSON tag, in declaration order. *)
Definition gostruct : Type := list (string * fval).

Definition zero_of (k : fkind) : fval :=
  match k with KString => FString "" | KRaw => FRaw None end.

Definition zero (shape : list (string * fkind)) : gostruct :=
  map (fun '(n, k) => (n, zero_of k)) shape.

Definition lower (c : ascii) : ascii :=
  let n := nat_of_ascii c in
  if (Nat.leb 65 n && Nat.leb n 90)%bool then ascii_of_nat (n + 32) else c.

(** Keys are compared up to Unicode simple case folding.  The tags are
    ASCII, so beside the ASCII letters only the two runes that fold to an
    ASCII letter matter: U+017F (bytes C5 BF) folds to s and U+212A (bytes
    E2 84 AA) to k. *)
Fixpoint foldName (s : string) : string :=
  match s with
  | EmptyString => EmptyString
  | String "197" (String "191" rest) => String "s" (foldName rest)
  | String "226" (String "132" (String "170" rest)) =>
      String "k" (foldName rest)
  | String c rest => String (lower c) (foldName rest)
  end.

(** Field selection: an exact tag match is preferred, otherwise a
    case-insensitive one. *)
Definition field_index (s : gostruct) (key : string) : option string :=
  match find (fun '(n, _) => String.eqb n key) s with
  | Some (n, _) => Some n
  | None =>
      match find (fun '(n, _) => String.eqb (foldName n) (foldName key)) s with
      | Some (n, _) => Some n
      | None => None
      end
  end.

Fixpoint set_field (s : gostruct) (name : string) (v : fval) : gostruct :=
  match s with
  | [] => []
  | (n, old) :: rest =>
      if String.eqb n name then (n, v) :: rest
      else (n, old) :: set_field rest name v
  end.

Fixpoint get_field (s : gostruct) (name : string) : option fval :=
  match s with
  | [] => None
  | (n, v) :: rest => if String.eqb n name then Some v else get_field rest name
  end.

(** [s.Name] for a string field. *)
Definition str (s : gostruct) (name : string) : string :=
  match get_field s name with Some (FString x) => x | _ => "" end.

(** [s.Name] for a [json.RawMessage] field. *)
Definition raw (s : gostruct) (name : string) : option json :=
  match get_field s name with Some (FRaw x) => x | _ => None end.

(** Storing one member.  A value that does not fit the field is skipped and
    the first such error is remembered; decoding goes on. *)
Definition store_member (s : gostruct) (saved : option error)
    (key : string) (v : json) : gostruct * option error :=
  match field_index s key with
  | None => (s, saved)
  | Some n =>
      match get_field s n with
      | Some (FRaw _) => (set_field s n (FRaw (Some v)), saved)
      | Some (FString _) =>
          match v with
          | JStr x => (set_field s n (FString x), saved)
          | JNull => (s, saved)
          | _ => (s, match saved with
                     | Some e => Some e
                     | None => Some UnmarshalTypeError
                     end)
          end
      | None => (s, saved)
      end
  end.

Fixpoint store_members (s : gostruct) (saved : option error)
    (ms : list (string * json)) : gostruct * option error :=
  match ms with
  | [] => (s, saved)
  | (k, v) :: rest =>
      let '(s', saved') := store_member s saved k v in
      store_members s' saved' rest
  end.

(** [json.Unmarshal(data, &s)].  [data = None] is input that is not a JSON
    document (this includes the empty input): the target is left untouched. *)
Definition Unmarshal (data : option json) (s : gostruct)
  : gostruct * option error :=
  match data with
  | None => (s, Some SyntaxError)
  | Some JNull => (s, None)
  | Some (JObj ms) => store_members s None ms
  | Some _ => (s, Some UnmarshalTypeError)
  end.

(** A Go [map[string]interface{}] as [json.Marshal] writes it: members
    sorted by key. *)
Fixpoint map_set (m : list (string * json)) (k : string) (v : json)
  : list (string * json) :=
  match m with
  | [] => [(k, v)]
  | (k', v') :: rest =>
      if String.eqb k k' then (k, v) :: rest
      else if String.ltb k k' then (k, v) :: (k', v') :: rest
      else (k', v') :: map_set rest k v
  end.

Definition map_lit (kvs : list (string * json)) : list (string * json) :=
  fold_left (fun m '(k, v) => map_set m k v) kvs [].

Definition has_key (m : list (string * json)) (k : string) : bool :=
  existsb (fun '(k', _) => String.eqb k' k) m.

End Json.

(* ===================================================================== *)
(** ** internal/util: IsValidEmail *)
(* ===================================================================== *)

Module util.

(** Regular expressions over bytes, enough for the pattern of the source. *)
Inductive regex : Type :=
| RVoid
| REps
| RClass (ranges : list (ascii * ascii))
| RSeq (r1 r2 : regex)
| RAlt (r1 r2 : regex)
| RStar (r : regex).

Definition RChar (c : ascii) : regex := RClass [(c, c)].
Definition RPlus (r : regex) : regex := RSeq r (RStar r).

(** [r{n,}] *)
Fixpoint RAtLeast (n : nat) (r : regex) : regex :=
  match n with
  | O => RStar r
  | S k => RSeq r (RAtLeast k r)
  end.

Definition in_range (c : ascii) (rg : ascii * ascii) : bool :=
  (Nat.leb (nat_of_ascii (fst rg)) (nat_of_ascii c)
   && Nat.leb (nat_of_ascii c) (nat_of_ascii (snd rg)))%bool.

Definition in_class (c : ascii) (ranges : list (ascii * ascii)) : bool :=
  existsb (in_range c) ranges.

Fixpoint nullable (r : regex) : bool :=
  match r with
  | RVoid => false
  | REps => true
  | RClass _ => false
  | RSeq r1 r2 => (nullable r1 && nullable r2)%bool
  | RAlt r1 r2 => (nullable r1 || nullable r2)%bool
  | RStar _ => true
  end.

Fixpoint deriv (c : ascii) (r : regex) : regex :=
  match r with
  | RVoid => RVoid
  | REps => RVoid
  | RClass ranges => if in_class c ranges then REps else RVoid
  | RSeq r1 r2 =>
      if nullable r1 then RAlt (RSeq (deriv c r1) r2) (deriv c r2)
      else RSeq (deriv c r1) r2
  | RAlt r1 r2 => RAlt (deriv c r1) (deriv c r2)
  | RStar r1 => RSeq (deriv c r1) (RStar r1)
  end.

(** Smart constructors keep the derivatives small; they do not change the
    language. *)
Fixpoint simp (r : regex) : regex :=
  match r with
  | RSeq r1 r2 =>
      match simp r1, simp r2 with
      | RVoid, _ => RVoid
      | _, RVoid => RVoid
      | REps, s2 => s2
      | s1, s2 => RSeq s1 s2
      end
  | RAlt r1 r2 =>
      match simp r1, simp r2 with
      | RVoid, s2 => s2
      | s1, RVoid => s1
      | s1, s2 => RAlt s1 s2
      end
  | _ => r
  end.

(** Anchored match: the whole input, as with [^...$]. *)
Fixpoint full_match (r : regex) (s : string) : bool :=
  match s with
  | EmptyString => nullable r
  | String c rest => full_match (simp (deriv c r)) rest
  end.

(** [[A-z0-9._%+-]] *)
Definition local_class : regex :=
  RClass [("A", "z"); ("0", "9"); (".", "."); ("_", "_"); ("%", "%");
          ("+", "+"); ("-", "-")]%char.

(** [[a-z0-9.-]] *)
Definition domain_class : regex :=
  RClass [("a", "z"); ("0", "9"); (".", "."); ("-", "-")]%char.

(** [^[A-z0-9._%+-]+@[a-z0-9.-]+\.[a-z]{2,}$] *)
Definition emailRegex : regex :=
  RSeq (RPlus local_class)
    (RSeq (RChar "@")
      (RSeq (RPlus domain_class)
        (RSeq (RChar ".")
          (RAtLeast 2 (RClass [("a", "z")]%char))))).

Definition IsValidEmail (email : string) : bool :=
  full_match emailRegex email.

End util.

(* ===================================================================== *)
(** ** Bounded channels *)
(* ===================================================================== *)

Module Chan.

(** A buffered channel of messages: what is queued, and whether [close] was
    called.  Every session queue is made with [make(chan []byte, 256)]. *)
Record chan : Type := { buf : list string; closed : bool }.

Definition capacity : nat := 256.

Definition make : chan := {| buf := []; closed := false |}.

Definition full (c : chan) : bool := Nat.leb capacity (length (buf c)).
Global Arguments full : simpl never.

(** What an operation of the hub's goroutine comes to. *)
Inductive outcome (A : Type) : Type :=
| Done (a : A)       (* completed *)
| Blocked (a : A)    (* parked on a channel operation, in state [a] *)
| Panic.             (* run-time panic *)
Arguments Done {A} a.
Arguments Blocked {A} a.
Arguments Panic {A}.

(** [c <- m]: panics on a closed channel, parks while the buffer is full. *)
Definition send (c : chan) (m : string) : outcome chan :=
  if closed c then Panic
  else if full c then Blocked c
  else Done {| buf := buf c ++ [m]; closed := false |}.

(** [select { case c <- m: ... default: ... }]: [Some None] is the default
    branch; a closed channel still panics. *)
Definition try_send (c : chan) (m : string) : option (option chan) :=
  if closed c then None
  else if full c then Some None
  else Some (Some {| buf := buf c ++ [m]; closed := false |}).

(** [close(c)]: panics when the channel is already closed. *)
Definition close (c : chan) : option chan :=
  if closed c then None else Some {| buf := buf c; closed := true |}.

(** [m, ok := <-c] when it can proceed: the oldest queued message. *)
Definition recv (c : chan) : option (string * chan) :=
  match buf c with
  | m :: rest => Some (m, {| buf := rest; closed := closed c |})
  | [] => None
  end.

End Chan.

(* ===================================================================== *)
(** ** websocket.go: the client manager *)
(* ===================================================================== *)

Module Hub.
Import Chan.

(** The address of a [Client]. *)
Definition ptr : Type := nat.

Inductive logline : Type :=
| ClientConnected (c : ptr)
| ClientDisconnected (c : ptr)
| ClientForciblyDisconnected (c : ptr).

(** [ClientManager], together with the [send] field of every client it may
    be handed (the heap the registry points into) and the log it writes. *)
Record ClientManager : Type := {
  clients : gmap ptr bool;
  send : ptr -> chan;
  log : list logline
}.

(** [var manager = ClientManager{clients: make(map[*Client]bool), ...}];
    every client is created with a fresh queue. *)
Definition manager : ClientManager :=
  {| clients := ∅; send := fun _ => Chan.make; log := [] |}.

Definition welcome : string := "Welcome to the Server!".

(** The requests of the three channels of [run]. *)
Inductive request : Type :=
| Register (c : ptr)
| Unregister (c : ptr)
| Broadcast (message : string).

(** [for client := range manager.clients { select {...} }].  The range
    visits each key of the map once; deleting the key being visited does
    not disturb it. *)
Fixpoint broadcast_range (keys : list ptr) (message : string)
    (m : ClientManager) : outcome ClientManager :=
  match keys with
  | [] => Done m
  | client :: rest =>
      match try_send (send m client) message with
      | None => Panic
      | Some (Some ch) =>
          broadcast_range rest message
            {| clients := clients m;
               send := <[client := ch]> (send m);
               log := log m |}
      | Some None =>
          match close (send m client) with
          | None => Panic
          | Some ch =>
              broadcast_range rest message
                {| clients := delete client (clients m);
                   send := <[client := ch]> (send m);
                   log := log m ++ [ClientForciblyDisconnected client] |}
          end
      end
  end.

(** The sessions a [range manager.clients] visits. *)
Definition registered (m : ClientManager) : list ptr :=
  (map_to_list (clients m)).*1.

(** One turn of the [for { select { ... } }] loop of [run]. *)
Definition run (m : ClientManager) (r : request) : outcome ClientManager :=
  match r with
  | Register client =>
      let m1 := {| clients := <[client := true]> (clients m);
                   send := send m;
                   log := log m ++ [ClientConnected client] |} in
      match Chan.send (send m1 client) welcome with
      | Panic => Panic
      | Blocked _ => Blocked m1
      | Done ch =>
          Done {| clients := clients m1;
                  send := <[client := ch]> (send m1);
                  log := log m1 |}
      end
  | Unregister client =>
      match clients m !! client with
      | Some _ =>
          match close (send m client) with
          | None => Panic
          | Some ch =>
              Done {| clients := delete client (clients m);
                      send := <[client := ch]> (send m);
                      log := log m ++ [ClientDisconnected client] |}
          end
      | None => Done m
      end
  | Broadcast message => broadcast_range (registered m) message m
  end.

(** [GetConnectedClientsCount] *)
Definition GetConnectedClientsCount (m : ClientManager) : nat :=
  size (clients m).

(** What happens around the hub: the hub serves a request, a write pump
    takes the oldest message of its queue, or a handler puts a reply on its
    own queue. *)
Inductive event : Type :=
| Serve (r : request)
| Drain (c : ptr)
| Reply (c : ptr) (message : string).

Definition step (m : ClientManager) (e : event) : outcome ClientManager :=
  match e with
  | Serve r => run m r
  | Drain c =>
      match recv (send m c) with
      | Some (_, ch) =>
          Done {| clients := clients m; send := <[c := ch]> (send m);
                  log := log m |}
      | None => Done m
      end
  | Reply c message =>
      match Chan.send (send m c) message with
      | Panic => Panic
      | Blocked _ => Blocked m
      | Done ch =>
          Done {| clients := clients m; send := <[c := ch]> (send m);
                  log := log m |}
      end
  end.

(** A history: the events are taken in order for as long as each one
    completes. *)
Fixpoint steps (m : ClientManager) (es : list event)
  : outcome ClientManager :=
  match es with
  | [] => Done m
  | e :: rest =>
      match step m e with
      | Done m' => steps m' rest
      | other => other
      end
  end.

Definition is_register (c : ptr) (e : event) : bool :=
  match e with
  | Serve (Register c') => Nat.eqb c c'
  | _ => false
  end.

Definition is_forced (c : ptr) (l : logline) : bool :=
  match l with
  | ClientForciblyDisconnected c' => Nat.eqb c c'
  | _ => false
  end.

(** What the loop maintains: the registry only ever holds [true], and a
    registered session has an open queue. *)
Definition consistent (m : ClientManager) : Prop :=
  forall c b, clients m !! c = Some b -> b = true /\ closed (send m c) = false.

(** A session that was dropped: out of the registry, queue closed. *)
Definition dropped (c : ptr) (m : ClientManager) : Prop :=
  clients m !! c = None /\ closed (send m c) = true.

End Hub.

(* ===================================================================== *)
(** ** internal/database: the schema and the statements run against it *)
(* ===================================================================== *)

Module Store.

(** A row of [users]. *)
Record User : Type := {
  u_id : Z;
  u_username : string;
  u_password_hash : string;
  u_email : option string;          (* VARCHAR(255) UNIQUE, nullable *)
  u_created_at : Z;
  u_last_login : option Z
}.

(** A row of [auth_tokens]. *)
Record AuthToken : Type := {
  t_id : Z;
  t_user_id : option Z;             (* INTEGER REFERENCES users(id) *)
  t_token : string;                 (* VARCHAR(255) UNIQUE NOT NULL *)
  t_ip_address : option string;     (* VARCHAR(50), nullable *)
  t_created_at : Z;
  t_expires_at : Z;
  t_last_used_at : option Z;
  t_is_revoked : bool
}.

(** The two tables and their SERIAL sequences.  Time is counted in
    seconds. *)
Record Database : Type := {
  users : list User;
  auth_tokens : list AuthToken;
  users_id_seq : Z;
  auth_tokens_id_seq : Z
}.

Definition empty : Database :=
  {| users := []; auth_tokens := [];
     users_id_seq := 1; auth_tokens_id_seq := 1 |}.

(** [INTERVAL '7 days'] *)
Definition seven_days : Z := 7 * 24 * 3600.

(** [SELECT EXISTS(SELECT 1 FROM users WHERE username = $1)] *)
Definition select_exists_username (d : Database) (username : string) : bool :=
  existsb (fun u => String.eqb (u_username u) username) (users d).

(** [SELECT EXISTS(SELECT 1 FROM users WHERE email = $1)]; a NULL email
    equals nothing. *)
Definition select_exists_email (d : Database) (email : string) : bool :=
  existsb (fun u => match u_email u with
                    | Some e => String.eqb e email
                    | None => false
                    end) (users d).

(** [INSERT INTO users (username, password_hash, email) VALUES ($1, $2, $3)].
    The three values are Go strings, so none of them is NULL.  The flag is
    [false] when a constraint is violated (primary key, UNIQUE username,
    UNIQUE email); the sequence has advanced all the same. *)
Definition insert_user (d : Database) (now : Z)
    (username password_hash email : string) : Database * bool :=
  let id := users_id_seq d in
  let bumped := {| users := users d; auth_tokens := auth_tokens d;
                   users_id_seq := id + 1;
                   auth_tokens_id_seq := auth_tokens_id_seq d |} in
  if (existsb (fun u => Z.eqb (u_id u) id) (users d)
      || select_exists_username d username
      || select_exists_email d email)%bool
  then (bumped, false)
  else ({| users := users d ++
             [{| u_id := id; u_username := username;
                 u_password_hash := password_hash; u_email := Some email;
                 u_created_at := now; u_last_login := None |}];
           auth_tokens := auth_tokens d;
           users_id_seq := id + 1;
           auth_tokens_id_seq := auth_tokens_id_seq d |}, true).

(** [SELECT id FROM users WHERE username = $1] *)
Definition select_user_id (d : Database) (username : string) : option Z :=
  match find (fun u => String.eqb (u_username u) username) (users d) with
  | Some u => Some (u_id u)
  | None => None
  end.

(** [INSERT INTO auth_tokens (user_id, token, ip_address, created_at,
    expires_at) VALUES ($1, $2, $3, NOW(), NOW() + INTERVAL '7 days')] with
    its constraints: primary key, the foreign key to [users], UNIQUE
    token. *)
Definition insert_token (d : Database) (now : Z)
    (user_id : Z) (token ip : string) : Database * bool :=
  let id := auth_tokens_id_seq d in
  let bumped := {| users := users d; auth_tokens := auth_tokens d;
                   users_id_seq := users_id_seq d;
                   auth_tokens_id_seq := id + 1 |} in
  if (existsb (fun t => Z.eqb (t_id t) id) (auth_tokens d)
      || negb (existsb (fun u => Z.eqb (u_id u) user_id) (users d))
      || existsb (fun t => String.eqb (t_token t) token) (auth_tokens d))%bool
  then (bumped, false)
  else ({| users := users d;
           auth_tokens := auth_tokens d ++
             [{| t_id := id; t_user_id := Some user_id; t_token := token;
                 t_ip_address := Some ip; t_created_at := now;
                 t_expires_at := now + seven_days;
                 t_last_used_at := None; t_is_revoked := false |}];
           users_id_seq := users_id_seq d;
           auth_tokens_id_seq := id + 1 |}, true).

(** The owner a token row is joined with: [JOIN users u ON t.user_id = u.id]. *)
Definition owner (d : Database) (t : AuthToken) : option User :=
  match t_user_id t with
  | Some uid => find (fun u => Z.eqb (u_id u) uid) (users d)
  | None => None
  end.

(** [SELECT t.id, u.username, t.ip_address FROM auth_tokens t
     JOIN users u ON t.user_id = u.id
     WHERE t.token = $1 AND t.expires_at > NOW()]: the first row, if any. *)
Fixpoint select_token_rows (d : Database) (now : Z) (token : string)
    (rows : list AuthToken) : option (Z * string * option string) :=
  match rows with
  | [] => None
  | t :: rest =>
      if (String.eqb (t_token t) token && Z.ltb now (t_expires_at t))%bool
      then match owner d t with
           | Some u => Some (t_id t, u_username u, t_ip_address t)
           | None => select_token_rows d now token rest
           end
      else select_token_rows d now token rest
  end.

Definition select_token (d : Database) (now : Z) (token : string)
  : option (Z * string * option string) :=
  select_token_rows d now token (auth_tokens d).

(** [UPDATE auth_tokens SET last_used_at = NOW(), ip_address = $1
     WHERE id = $2] *)
Definition update_token_usage (d : Database) (now : Z) (ip : string) (id : Z)
  : Database :=
  {| users := users d;
     auth_tokens :=
       map (fun t =>
              if Z.eqb (t_id t) id
              then {| t_id := t_id t; t_user_id := t_user_id t;
                      t_token := t_token t; t_ip_address := Some ip;
                      t_created_at := t_created_at t;
                      t_expires_at := t_expires_at t;
                      t_last_used_at := Some now;
                      t_is_revoked := t_is_revoked t |}
              else t) (auth_tokens d);
     users_id_seq := users_id_seq d;
     auth_tokens_id_seq := auth_tokens_id_seq d |}.

(** [SELECT id, password_hash FROM users WHERE username = $1] *)
Definition select_credentials (d : Database) (username : string)
  : option (Z * string) :=
  match find (fun u => String.eqb (u_username u) username) (users d) with
  | Some u => Some (u_id u, u_password_hash u)
  | None => None
  end.

(** [token VARCHAR(255) UNIQUE NOT NULL] as a property of the table. *)
Definition unique_tokens (d : Database) : Prop :=
  NoDup (t_token <$> auth_tokens d).

(** The statements a handler can send to the pool. *)
Inductive stmt : Type :=
| SelectUserExists (username : string)
| SelectEmailExists (email : string)
| InsertUser (username password_hash email : string)
| SelectUserId (username : string)
| InsertToken (user_id : Z) (token ip : string)
| SelectToken (token : string)
| UpdateTokenUsage (ip : string) (id : Z)
| SelectCredentials (username : string).

End Store.

(* ===================================================================== *)
(** ** websocket.go: per-connection handlers *)
(* ===================================================================== *)

Module Session.
Import Json Store.

(** The part of [Client] the handlers read and write.  [remote_addr] is
    [conn.RemoteAddr().String()]; the [send] queue is the [sent] field of
    the world below. *)
Record Client : Type := {
  id : string;
  remote_addr : string;
  username : string;
  authenticated : bool;
  authToken : string
}.

(** [&Client{id: r.RemoteAddr, conn: conn, send: ..., ...}] *)
Definition new_client (addr : string) : Client :=
  {| id := addr; remote_addr := addr; username := "";
     authenticated := false; authToken := "" |}.

Inductive logentry : Type :=
| Printf (format : string) (args : list string)
| Info (msg : string) (fields : list (string * string)).

(** Everything else a handler touches: the store behind [dbPool] with its
    clock ([now] is what [NOW()] gives while one packet is handled), which
    of the coming statements the store refuses to run
    ([faults]: deadline exceeded, connection lost, ...), the values
    [uuid.New()] will draw, the values handed to [client.send <-] in
    order, the log, and the statements sent to the pool in order, each
    with the error it returned. *)
Record World : Type := {
  db : Database;
  now : Z;
  faults : list bool;
  uuid : nat -> string;
  drawn : nat;
  sent : list json;
  log : list logentry;
  calls : list (stmt * option error)
}.

Record St : Type := { client : Client; world : World }.

(** Libraries outside the repository, taken as given:
    [bcrypt.GenerateFromPassword(p, 12)], [bcrypt.CompareHashAndPassword]
    and [net.SplitHostPort]. *)
Record Lib : Type := {
  GenerateFromPassword : string -> option string;
  CompareHashAndPassword : string -> string -> bool;
  SplitHostPort : string -> option (string * string)
}.

Definition M (A : Type) : Type := St -> A * St.

Definition ret {A} (a : A) : M A := fun s => (a, s).

Definition bind {A B} (c : M A) (k : A -> M B) : M B :=
  fun s => let '(a, s') := c s in k a s'.

Declare Scope go_scope.
Delimit Scope go_scope with go.
Notation "x <- c ;; k" := (bind c (fun x => k))
  (at level 100, c at next level, k at level 200, right associativity)
  : go_scope.
Notation "c ;;; k" := (bind c (fun _ => k))
  (at level 100, k at level 200, right associativity) : go_scope.
Local Open Scope go_scope.

Definition get : M St := fun s => (s, s).

Definition with_world (f : World -> World) : M unit :=
  fun s => (tt, {| client := client s; world := f (world s) |}).

Definition with_client (f : Client -> Client) : M unit :=
  fun s => (tt, {| client := f (client s); world := world s |}).

Definition set_db (d : Database) (w : World) : World :=
  {| db := d; now := now w; faults := faults w; uuid := uuid w;
     drawn := drawn w; sent := sent w; log := log w; calls := calls w |}.

Definition set_faults (f : list bool) (w : World) : World :=
  {| db := db w; now := now w; faults := f; uuid := uuid w;
     drawn := drawn w; sent := sent w; log := log w; calls := calls w |}.

Definition set_drawn (n : nat) (w : World) : World :=
  {| db := db w; now := now w; faults := faults w; uuid := uuid w;
     drawn := n; sent := sent w; log := log w; calls := calls w |}.

Definition push_sent (v : json) (w : World) : World :=
  {| db := db w; now := now w; faults := faults w; uuid := uuid w;
     drawn := drawn w; sent := sent w ++ [v]; log := log w;
     calls := calls w |}.

Definition push_log (e : logentry) (w : World) : World :=
  {| db := db w; now := now w; faults := faults w; uuid := uuid w;
     drawn := drawn w; sent := sent w; log := log w ++ [e];
     calls := calls w |}.

Definition push_call (c : stmt * option error) (w : World) : World :=
  {| db := db w; now := now w; faults := faults w; uuid := uuid w;
     drawn := drawn w; sent := sent w; log := log w;
     calls := calls w ++ [c] |}.

(** [client.send <- v] *)
Definition send (v : json) : M unit := with_world (push_sent v).

Definition logf (format : string) (args : list string) : M unit :=
  with_world (push_log (Printf format args)).

Definition show (e : error) : string :=
  match e with
  | SyntaxError => "json: syntax error"
  | UnmarshalTypeError => "json: cannot unmarshal"
  | ErrNoRows => "no rows in result set"
  | pgx_ErrNoRows => "no rows in result set"
  | ErrStore => "store error"
  | ErrBcrypt => "bcrypt error"
  end.

(** [err != nil] *)
Definition failed (err : option error) : bool :=
  match err with Some _ => true | None => false end.

(** [uuid.New().String()] *)
Definition uuid_New : M string :=
  s <- get ;;
  with_world (set_drawn (S (drawn (world s)))) ;;;
  ret (uuid (world s) (drawn (world s))).

(** Whether the store refuses the next statement. *)
Definition fault : M bool :=
  s <- get ;;
  match faults (world s) with
  | [] => ret false
  | f :: rest => with_world (set_faults rest) ;;; ret f
  end.

(** The statement and the error it returned go on record. *)
Definition record (c : stmt) (err : option error) : M unit :=
  with_world (push_call (c, err)).

Definition QueryUserExists (name : string) : M (bool * option error) :=
  refused <- fault ;;
  if refused : bool then
    record (SelectUserExists name) (Some ErrStore) ;;;
    ret (false, Some ErrStore)
  else
    s <- get ;;
    record (SelectUserExists name) None ;;;
    ret (select_exists_username (db (world s)) name, None).

Definition QueryEmailExists (email : string) : M (bool * option error) :=
  refused <- fault ;;
  if refused : bool then
    record (SelectEmailExists email) (Some ErrStore) ;;;
    ret (false, Some ErrStore)
  else
    s <- get ;;
    record (SelectEmailExists email) None ;;;
    ret (select_exists_email (db (world s)) email, None).

Definition ExecInsertUser (name hash email : string) : M (option error) :=
  refused <- fault ;;
  if refused : bool then
    record (InsertUser name hash email) (Some ErrStore) ;;;
    ret (Some ErrStore)
  else
    s <- get ;;
    let '(d, ok) := insert_user (db (world s)) (now (world s)) name hash email in
    let err := if ok : bool then None else Some ErrStore in
    with_world (set_db d) ;;;
    record (InsertUser name hash email) err ;;;
    ret err.

Definition QueryUserId (name : string) : M (Z * option error) :=
  refused <- fault ;;
  if refused : bool then
    record (SelectUserId name) (Some ErrStore) ;;;
    ret (0, Some ErrStore)
  else
    s <- get ;;
    match select_user_id (db (world s)) name with
    | Some i => record (SelectUserId name) None ;;; ret (i, None)
    | None =>
        record (SelectUserId name) (Some ErrNoRows) ;;;
        ret (0, Some ErrNoRows)
    end.

Definition ExecInsertToken (user_id : Z) (token ip : string)
  : M (option error) :=
  refused <- fault ;;
  if refused : bool then
    record (InsertToken user_id token ip) (Some ErrStore) ;;;
    ret (Some ErrStore)
  else
    s <- get ;;
    let '(d, ok) :=
      insert_token (db (world s)) (now (world s)) user_id token ip in
    let err := if ok : bool then None else Some ErrStore in
    with_world (set_db d) ;;;
    record (InsertToken user_id token ip) err ;;;
    ret err.

Definition QueryToken (token : string)
  : M (option (Z * string * option string) * option error) :=
  refused <- fault ;;
  if refused : bool then
    record (SelectToken token) (Some ErrStore) ;;;
    ret (None, Some ErrStore)
  else
    s <- get ;;
    match select_token (db (world s)) (now (world s)) token with
    | Some row => record (SelectToken token) None ;;; ret (Some row, None)
    | None =>
        record (SelectToken token) (Some ErrNoRows) ;;;
        ret (None, Some ErrNoRows)
    end.

Definition ExecUpdateTokenUsage (ip : string) (tokenID : Z)
  : M (option error) :=
  refused <- fault ;;
  if refused : bool then
    record (UpdateTokenUsage ip tokenID) (Some ErrStore) ;;;
    ret (Some ErrStore)
  else
    s <- get ;;
    with_world
      (set_db (update_token_usage (db (world s)) (now (world s)) ip tokenID)) ;;;
    record (UpdateTokenUsage ip tokenID) None ;;;
    ret None.

Definition QueryCredentials (name : string)
  : M (option (Z * string) * option error) :=
  refused <- fault ;;
  if refused : bool then
    record (SelectCredentials name) (Some ErrStore) ;;;
    ret (None, Some ErrStore)
  else
    s <- get ;;
    match select_credentials (db (world s)) name with
    | Some row => record (SelectCredentials name) None ;;; ret (Some row, None)
    | None =>
        record (SelectCredentials name) (Some ErrNoRows) ;;;
        ret (None, Some ErrNoRows)
    end.

Section Handlers.

Variable lib : Lib.

(** [getClientIP]: the host part of the remote address, or the whole
    address when it does not split. *)
Definition getClientIP : M string :=
  s <- get ;;
  let remoteAddr := remote_addr (client s) in
  match SplitHostPort lib remoteAddr with
  | Some (ip, _) => ret ip
  | None => ret remoteAddr
  end.

(** [sendError] *)
Definition sendError (category message : string) : M unit :=
  let response :=
    map_lit [("type", JStr "error");
             ("payload", JObj (map_lit [("subtype", JStr category);
                                        ("message", JStr message)]))] in
  send (JObj response).

(** Modelled from the spec: [sendAuthError] is called by
    [handleAuthentication] and is not in the sources; the spec has it emit
    a generic authentication error, [error{subtype, message}]. *)
Definition sendAuthError (message : string) : M unit :=
  sendError "auth_error" message.

(** [completeAuthentication] *)
Definition completeAuthentication (name token : string) : M unit :=
  with_client (fun c =>
    {| id := id c; remote_addr := remote_addr c; username := name;
       authenticated := true; authToken := token |}) ;;;
  let response :=
    map_lit [("type", JStr "auth_success");
             ("payload", JObj (map_lit [("username", JStr name);
                                        ("token", JStr token)]))] in
  send (JObj response) ;;;
  s <- get ;;
  logf "Client authenticated: %s as %s" [id (client s); name].

(** [sendRegistrationSuccess] *)
Definition sendRegistrationSuccess (autoLogin : bool) (name token : string)
  : M unit :=
  let payload :=
    map_lit [("success", JBool true);
             ("message", JStr "Registration successful");
             ("autoLogin", JBool autoLogin)] in
  let payload :=
    if autoLogin
    then map_set (map_set payload "username" (JStr name)) "token" (JStr token)
    else payload in
  let response :=
    map_lit [("type", JStr "register_success"); ("payload", JObj payload)] in
  send (JObj response).

(** [validateToken].  [err == pgx.ErrNoRows] compares the error of the
    pgx/v5 pool with the value of the other package. *)
Definition validateToken (token clientIP : string)
  : M (string * bool * option error) :=
  q <- QueryToken token ;;
  match q with
  | (_, Some err) =>
      match err with
      | pgx_ErrNoRows => ret ("", false, None)
      | _ => ret ("", false, Some err)
      end
  | (None, None) => ret ("", false, None)
  | (Some (tokenID, name, storedIP), None) =>
      (match storedIP with
       | Some stored =>
           if (negb (String.eqb stored "")
               && negb (String.eqb stored clientIP))%bool
           then logf "Warning: Token used from new IP. Original: %s, Current: %s"
                  [stored; clientIP]
           else ret tt
       | None => ret tt
       end) ;;;
      err <- ExecUpdateTokenUsage clientIP tokenID ;;
      (match err with
       | Some e => logf "Error updating token usage: %v" [show e]
       | None => ret tt
       end) ;;;
      ret (name, true, None)
  end.

(** Modelled from the spec: [validateCredentials] is called by
    [handleAuthentication] and is not in the sources.  By the spec it
    verifies the password against the stored hash and, on a match, issues
    a new opaque token bound to the user id, the client IP and an expiry
    of now + 7 days. *)
Definition validateCredentials (name password : string)
  : M (bool * string * option error) :=
  q <- QueryCredentials name ;;
  match q with
  | (_, Some ErrNoRows) => ret (false, "", None)
  | (_, Some err) => ret (false, "", Some err)
  | (None, None) => ret (false, "", None)
  | (Some (userID, hash), None) =>
      if CompareHashAndPassword lib hash password then
        token <- uuid_New ;;
        clientIP <- getClientIP ;;
        err <- ExecInsertToken userID token clientIP ;;
        match err with
        | Some e => ret (false, "", Some e)
        | None => ret (true, token, None)
        end
      else ret (false, "", None)
  end.

Definition credentials_shape : list (string * fkind) :=
  [("username", KString); ("password", KString)].

Definition tokenAuth_shape : list (string * fkind) := [("token", KString)].

Definition registration_shape : list (string * fkind) :=
  [("username", KString); ("password", KString); ("email", KString)].

(** [type Message struct { Type string; Payload json.RawMessage }] *)
Definition Message_shape : list (string * fkind) :=
  [("type", KString); ("payload", KRaw)].

(** [handleAuthentication] *)
Definition handleAuthentication (msg : gostruct) : M unit :=
  if String.eqb (str msg "type") "login" then
    let '(credentials, err) :=
      Unmarshal (raw msg "payload") (zero credentials_shape) in
    match err with
    | Some e =>
        logf "Error parsing login credentials: %v" [show e] ;;;
        sendError "" "Invalid login format"
    | None =>
        r <- validateCredentials (str credentials "username")
               (str credentials "password") ;;
        let '(ok, token, err) := r in
        if (failed err || negb ok)%bool
        then sendAuthError "Invalid username or password"
        else completeAuthentication (str credentials "username") token
    end
  else if String.eqb (str msg "type") "token_auth" then
    let '(tokenAuth, err) :=
      Unmarshal (raw msg "payload") (zero tokenAuth_shape) in
    match err with
    | Some e =>
        logf "Error parsing token auth: %v" [show e] ;;;
        sendAuthError "Invalid token format"
    | None =>
        clientIP <- getClientIP ;;
        r <- validateToken (str tokenAuth "token") clientIP ;;
        let '(name, valid, err) := r in
        if (failed err || negb valid)%bool
        then sendAuthError "Invalid or expired token"
        else completeAuthentication name (str tokenAuth "token")
    end
  else ret tt.

(** [handleRegistration] *)
Definition handleRegistration (msg : gostruct) : M unit :=
  let '(registration, err) :=
    Unmarshal (raw msg "payload") (zero registration_shape) in
  let Username := str registration "username" in
  let Password := str registration "password" in
  let Email := str registration "email" in
  match err with
  | Some e =>
      logf "Error parsing registration data: %v" [show e] ;;;
      sendError "registration_error" "Invalid registration format"
  | None =>
  if Nat.ltb (String.length Username) 3 then
    sendError "registration_error" "Username must be at least 3 characters"
  else if Nat.ltb (String.length Password) 6 then
    sendError "registration_error" "Password must be at least 6 characters"
  else if (negb (String.eqb Email "") && negb (util.IsValidEmail Email))%bool
  then sendError "registration_error" "Invalid email format"
  else
  (* Check if username already exists *)
  q <- QueryUserExists Username ;;
  let '(exists_, err) := q in
  match err with
  | Some e =>
      logf "Database error during registration: %v" [show e] ;;;
      sendError "registration_error" "Registration failed due to a server error"
  | None =>
  if exists_ : bool then
    sendError "registration_error" "Username already exists"
  else
  (* Check if email already exists (if provided) *)
  returned <-
    (if negb (String.eqb Email "") then
       q <- QueryEmailExists Email ;;
       let '(exists_, err) := q in
       match err with
       | Some e =>
           logf "Database error during registration: %v" [show e] ;;;
           sendError "registration_error"
             "Registration failed due to a server error" ;;;
           ret true
       | None =>
           if exists_ : bool then
             sendError "registration_error" "Email already registered" ;;;
             ret true
           else ret false
       end
     else ret false) ;;
  if returned : bool then ret tt else
  (* Hash the password using bcrypt *)
  match GenerateFromPassword lib Password with
  | None =>
      logf "Error hashing password: %v" [show ErrBcrypt] ;;;
      sendError "registration_error" "Registration failed due to a server error"
  | Some passwordHash =>
  (* Insert user into database *)
  err <- ExecInsertUser Username passwordHash Email ;;
  match err with
  | Some e =>
      logf "Error inserting new user: %v" [show e] ;;;
      sendError "registration_error" "Registration failed due to a server error"
  | None =>
  (* Generate token for automatic login *)
  token <- uuid_New ;;
  (* Get the user ID for the token *)
  q <- QueryUserId Username ;;
  let '(userID, err) := q in
  match err with
  | Some e =>
      logf "Error retrieving new user ID: %v" [show e] ;;;
      sendRegistrationSuccess false "" ""
  | None =>
  clientIP <- getClientIP ;;
  (* Store token with IP *)
  err <- ExecInsertToken userID token clientIP ;;
  match err with
  | Some e =>
      logf "Error creating token for new user: %v" [show e] ;;;
      sendRegistrationSuccess false "" ""
  | None =>
  (* Registration and auto-login successful *)
  with_client (fun c =>
    {| id := id c; remote_addr := remote_addr c; username := Username;
       authenticated := true; authToken := token |}) ;;;
  sendRegistrationSuccess true Username token ;;;
  logf "New user registered and authenticated: %s" [Username]
  end end end end end end.

(** [handlePacket].  [message_string] is the frame and [doc] the JSON
    document it spells, [None] when it is not valid JSON. *)
Definition handlePacket (message_string : string) (doc : option json)
  : M unit :=
  let '(message, err) := Unmarshal doc (zero Message_shape) in
  (match err with
   | Some _ =>
       s <- get ;;
       with_world (push_log
         (Info "Received String as Message"
            [("client_id", id (client s)); ("message", message_string)]))
   | None => ret tt
   end) ;;;
  if String.eqb (str message "type") "login" then
    handleAuthentication message
  else if String.eqb (str message "type") "register" then
    handleRegistration message
  else if String.eqb (str message "type") "token_auth" then
    let tokenAuth := zero tokenAuth_shape in
    clientIP <- getClientIP ;;
    r <- validateToken (str tokenAuth "token") clientIP ;;
    let '(name, valid, err) := r in
    if (failed err || negb valid)%bool
    then sendError "token_error" "Invalid or expired token"
    else completeAuthentication name (str tokenAuth "token")
  else ret tt.

(** What [c.conn.ReadMessage()] returns. *)
Inductive read : Type :=
| ReadError
| ReadMessage (message_string : string) (doc : option json).

(** [readPump] over the reads the transport delivers.  The result tells
    whether the loop was left (after which the deferred unregister and
    close run); [false] means it is waiting for the next frame. *)
Fixpoint readPump (reads : list read) : M bool :=
  match reads with
  | [] => ret false
  | ReadError :: _ => ret true
  | ReadMessage message_string doc :: rest =>
      s <- get ;;
      with_world (push_log
        (Info "Received message"
           [("client_id", id (client s)); ("message", message_string)])) ;;;
      handlePacket message_string doc ;;;
      readPump rest
  end.

End Handlers.

(** A world for a given store and clock in which no statement is refused,
    nothing was sent or logged, and [uuid.New()] draws [ids]. *)
Definition world_of (d : Database) (t : Z) (ids : nat -> string) : World :=
  {| db := d; now := t; faults := []; uuid := ids; drawn := O;
     sent := []; log := []; calls := [] |}.

End Session.

(* ===================================================================== *)
(** ** Concrete scenarios used below *)
(* ===================================================================== *)

Module Scenario.
Import Chan Hub.

(** Two sessions register; the first one then gets 255 replies that its
    write pump does not take, so its queue holds 256 messages. *)
Definition busy_history : list event :=
  Serve (Register 1%nat) :: Serve (Register 2%nat)
    :: repeat (Reply 1%nat "x") 255.

Definition after (es : list event) : ClientManager :=
  match steps manager es with
  | Done m => m
  | _ => manager
  end.

Definition busy_hub : ClientManager := after busy_history.

Import Json Store Session.

(** The text of a JSON document (strings without escapes). *)
Definition quote : string := String "034"%char EmptyString.

Fixpoint render (v : json) : string :=
  match v with
  | JNull => "null"
  | JBool true => "true"
  | JBool false => "false"
  | JNum n => NilEmpty.string_of_int (Z.to_int n)
  | JStr s => quote +:+ s +:+ quote
  | JArr items =>
      "[" +:+
      (fix go (l : list json) : string :=
         match l with
         | [] => ""
         | [x] => render x
         | x :: rest => render x +:+ "," +:+ go rest
         end) items +:+ "]"
  | JObj members =>
      "{" +:+
      (fix go (l : list (string * json)) : string :=
         match l with
         | [] => ""
         | [(k, x)] => quote +:+ k +:+ quote +:+ ":" +:+ render x
         | (k, x) :: rest =>
             quote +:+ k +:+ quote +:+ ":" +:+ render x +:+ "," +:+ go rest
         end) members +:+ "}"
  end.

(** [strings.IndexByte] and [strings.LastIndexByte]. *)
Fixpoint IndexByte (s : string) (c : ascii) : option nat :=
  match s with
  | EmptyString => None
  | String c' rest =>
      if Ascii.eqb c' c then Some O
      else match IndexByte rest c with
           | Some i => Some (S i)
           | None => None
           end
  end.

Fixpoint LastIndexByte (s : string) (c : ascii) : option nat :=
  match s with
  | EmptyString => None
  | String c' rest =>
      match LastIndexByte rest c with
      | Some i => Some (S i)
      | None => if Ascii.eqb c' c then Some O else None
      end
  end.

(** [i >= 0] for an index that is -1 when the byte does not occur. *)
Definition found (i : option nat) : bool :=
  match i with Some _ => true | None => false end.

(** [s[i:]] *)
Definition slice_from (i : nat) (s : string) : string :=
  String.substring i (String.length s - i) s.

(** [net.SplitHostPort]: the port starts after the last colon; a host in
    brackets loses them; a missing port, further colons outside brackets
    and stray brackets are errors. *)
Definition net_SplitHostPort (hostport : string) : option (string * string) :=
  match LastIndexByte hostport ":" with
  | None => None
  | Some i =>
      let port := slice_from (S i) hostport in
      match hostport with
      | String "[" _ =>
          match IndexByte hostport "]" with
          | None => None
          | Some end_ =>
              if Nat.eqb (S end_) i then
                let host := String.substring 1 (end_ - 1) hostport in
                if found (IndexByte (slice_from 1 hostport) "[") then None
                else if found (IndexByte (slice_from (S end_) hostport) "]")
                then None
                else Some (host, port)
              else None
          end
      | _ =>
          let host := String.substring 0 i hostport in
          if found (IndexByte host ":") then None
          else if found (IndexByte hostport "[") then None
          else if found (IndexByte hostport "]") then None
          else Some (host, port)
      end
  end.

(** A stand-in for bcrypt: the hash of [p] is [p] behind a bcrypt
    prefix. *)
Definition lib0 : Lib :=
  {| GenerateFromPassword := fun p => Some ("$2a$12$" +:+ p);
     CompareHashAndPassword := fun h p => String.eqb h ("$2a$12$" +:+ p);
     SplitHostPort := net_SplitHostPort |}.

Definition ids (n : nat) : string :=
  match n with
  | O => "6f1c2d1e-0000-4000-8000-000000000001"
  | _ => "6f1c2d1e-0000-4000-8000-000000000002"
  end.

(** A new connection from [addr], on store [d] at time [t]. *)
Definition connect (addr : string) (d : Database) (t : Z) : St :=
  {| client := new_client addr; world := world_of d t ids |}.

Definition envelope (type : string) (payload : json) : json :=
  JObj [("type", JStr type); ("payload", payload)].

(** A frame arrives: its text and the document it spells. *)
Definition receive (v : json) (st : St) : St :=
  snd (handlePacket lib0 (render v) (Some v) st).

Definition register_alice : json :=
  envelope "register"
    (JObj [("username", JStr "alice"); ("password", JStr "secretpw");
           ("email", JStr "")]).

(** alice registers from 10.0.0.1 at time 1000. *)
Definition alice_registered : St :=
  receive register_alice (connect "10.0.0.1:5000" Store.empty 1000).

Definition alice_db : Database := db (world alice_registered).

Definition alice_row : User :=
  {| u_id := 1; u_username := "alice"; u_password_hash := "$2a$12$secretpw";
     u_email := Some ""; u_created_at := 1000; u_last_login := None |}.

Definition alice_token : AuthToken :=
  {| t_id := 1; t_user_id := Some 1; t_token := ids 0;
     t_ip_address := Some "10.0.0.1"; t_created_at := 1000;
     t_expires_at := 1000 + seven_days; t_last_used_at := None;
     t_is_revoked := false |}.

End Scenario.

(* ===================================================================== *)
(** ** websocket.go: accepting a connection and the write pump *)
(* ===================================================================== *)

Module Pump.
Import Chan Hub.

(** What [conn.WriteMessage] is given: a text frame or the close frame. *)
Inductive frame : Type :=
| TextMessage (message : string)
| CloseMessage.

(** The transport as the write pump sees it: the frames it has taken, for
    each coming [WriteMessage] whether it fails, whether [conn.Close()]
    has run, and how many write errors were logged. *)
Record Conn : Type := {
  written : list frame;
  failing : list bool;
  conn_closed : bool;
  write_errors : nat
}.

Definition dial : Conn :=
  {| written := []; failing := []; conn_closed := false; write_errors := O |}.

(** [c.conn.WriteMessage(kind, data)]; the flag is [err != nil]. *)
Definition WriteMessage (k : Conn) (f : frame) : Conn * bool :=
  match failing k with
  | true :: rest =>
      ({| written := written k; failing := rest;
          conn_closed := conn_closed k; write_errors := write_errors k |},
       true)
  | _ =>
      ({| written := written k ++ [f]; failing := tl (failing k);
          conn_closed := conn_closed k; write_errors := write_errors k |},
       false)
  end.

(** [c.conn.Close()] *)
Definition Close (k : Conn) : Conn :=
  {| written := written k; failing := failing k; conn_closed := true;
     write_errors := write_errors k |}.

Definition log_write_error (k : Conn) : Conn :=
  {| written := written k; failing := failing k;
     conn_closed := conn_closed k; write_errors := S (write_errors k) |}.

(** How a run of the pump ends: parked in [<-c.send] on an open, empty
    queue, or returned (the deferred [conn.Close()] has run). *)
Inductive pump_end : Type := Parked | Returned.

(** [writePump]: the loop takes the oldest queued message ([<-c.send], as
    [Chan.recv]) and writes it; [queue] is what is buffered and [is_closed]
    whether the channel was closed. *)
Fixpoint writePump_from (queue : list string) (is_closed : bool) (k : Conn)
  : pump_end * chan * Conn :=
  match queue with
  | [] =>
      if is_closed then
        (* Channel was closed *)
        let '(k1, _) := WriteMessage k CloseMessage in
        (Returned, {| buf := []; closed := true |}, Close k1)
      else (Parked, {| buf := []; closed := false |}, k)
  | message :: rest =>
      let '(k1, err) := WriteMessage k (TextMessage message) in
      if err : bool then
        (Returned, {| buf := rest; closed := is_closed |},
         Close (log_write_error k1))
      else writePump_from rest is_closed k1
  end.

Definition writePump (c : chan) (k : Conn) : pump_end * chan * Conn :=
  writePump_from (buf c) (closed c) k.


(** How many of the given sessions have a full queue. *)
Definition full_queues (m : ClientManager) (keys : list ptr) : nat :=
  length (filter (fun c => full (send m c) = true) keys).

End Pump.

(* ===================================================================== *)
(** ** internal/database: the constraints of the schema *)
(* ===================================================================== *)

Module Schema.
Import Store.

(** What [SetupDatabase] declares, as a property of the two tables:
    primary keys, [username UNIQUE], [email UNIQUE] (NULLs apart),
    [token UNIQUE], and [user_id REFERENCES users(id)]. *)
Definition well_formed (d : Database) : Prop :=
  NoDup (u_id <$> users d) /\
  NoDup (u_username <$> users d) /\
  NoDup (omap u_email (users d)) /\
  NoDup (t_id <$> auth_tokens d) /\
  NoDup (t_token <$> auth_tokens d) /\
  (forall t uid, t ∈ auth_tokens d -> t_user_id t = Some uid ->
     exists u, u ∈ users d /\ u_id u = uid).

End Schema.

(* ===================================================================== *)
(** ** internal/util: what the address pattern denotes *)
(* ===================================================================== *)

Module Pattern.
Import util.

(** The strings a regular expression stands for, in the textbook sense;
    [util.full_match] is checked against it below. *)
Inductive matches : regex -> string -> Prop :=
| MEps : matches REps EmptyString
| MClass c ranges :
    in_class c ranges = true -> matches (RClass ranges) (String c EmptyString)
| MSeq r1 r2 s1 s2 :
    matches r1 s1 -> matches r2 s2 -> matches (RSeq r1 r2) (s1 +:+ s2)
| MAltL r1 r2 s : matches r1 s -> matches (RAlt r1 r2) s
| MAltR r1 r2 s : matches r2 s -> matches (RAlt r1 r2) s
| MStarNil r : matches (RStar r) EmptyString
| MStarApp r s1 s2 :
    matches r s1 -> matches (RStar r) s2 -> matches (RStar r) (s1 +:+ s2).

(** Every byte of [s] lies in one of the ranges. *)
Fixpoint all_in (ranges : list (ascii * ascii)) (s : string) : bool :=
  match s with
  | EmptyString => true
  | String c rest => (in_class c ranges && all_in ranges rest)%bool
  end.

(** How often the byte [c] occurs in [s]. *)
Fixpoint occurrences (c : ascii) (s : string) : nat :=
  match s with
  | EmptyString => O
  | String c' rest =>
      ((if Ascii.eqb c c' then 1 else 0) + occurrences c rest)%nat
  end.

(** The ranges of the three character classes of [emailRegex]. *)
Definition local_ranges : list (ascii * ascii) :=
  match local_class with RClass ranges => ranges | _ => [] end.

Definition domain_ranges : list (ascii * ascii) :=
  match domain_class with RClass ranges => ranges | _ => [] end.

Definition suffix_ranges : list (ascii * ascii) := [("a", "z")]%char.


End Pattern.

(* ===================================================================== *)
(** * Properties *)
(* ===================================================================== *)

(** ** The address pattern *)

Example IsValidEmail_plain : util.IsValidEmail "alice@example.com" = true.
Proof. vm_compute. reflexivity. Qed.

Example IsValidEmail_needs_at : util.IsValidEmail "alice.example.com" = false.
Proof. vm_compute. reflexivity. Qed.

Example IsValidEmail_needs_two_letter_suffix :
  util.IsValidEmail "a@b.c" = false.
Proof. vm_compute. reflexivity. Qed.

Example IsValidEmail_lower_case_domain :
  util.IsValidEmail "alice@Example.com" = false.
Proof. vm_compute. reflexivity. Qed.

Section PatternFacts.
Import util Pattern.
Local Open Scope list_scope.

Local Arguments String.append !s1 s2 : simpl nomatch.

Lemma append_empty_inv (s1 s2 : string) :
  s1 +:+ s2 = EmptyString -> s1 = EmptyString /\ s2 = EmptyString.
Proof. destruct s1; cbn; [done|discriminate]. Qed.

Lemma nullable_spec (r : regex) :
  nullable r = true <-> matches r EmptyString.
Proof.
  split.
  - induction r as [| |rs|r1 IH1 r2 IH2|r1 IH1 r2 IH2|r IH]; cbn; intros H;
      try discriminate.
    + constructor.
    + apply andb_true_iff in H as [H1 H2].
      change EmptyString with (EmptyString +:+ EmptyString).
      constructor; auto.
    + apply orb_true_iff in H as [H|H]; [apply MAltL|apply MAltR]; auto.
    + constructor.
  - intros H. remember EmptyString as s eqn:Hs.
    induction H as [|c rs Hc|r1 r2 s1 s2 H1 IH1 H2 IH2|r1 r2 s H IH
                    |r1 r2 s H IH|r|r s1 s2 H1 IH1 H2 IH2]; cbn;
      try done.
    + apply append_empty_inv in Hs as [-> ->].
      by rewrite IH1, IH2.
    + by rewrite IH.
    + rewrite IH by done. apply orb_true_r.
Qed.

Lemma deriv_sound (c : ascii) (r : regex) :
  forall s, matches (deriv c r) s -> matches r (String c s).
Proof.
  induction r as [| |rs|r1 IH1 r2 IH2|r1 IH1 r2 IH2|r IH]; cbn; intros s H.
  - inversion H.
  - inversion H.
  - destruct (in_class c rs) eqn:Hc; inversion H; subst. by constructor.
  - destruct (nullable r1) eqn:Hn.
    + inversion H as [| | | ? ? ? H'| ? ? ? H'| |]; subst.
      * inversion H' as [| |? ? s1 s2 Ha Hb| | | |]; subst.
        apply (MSeq r1 r2 (String c s1) s2); auto.
      * apply (MSeq r1 r2 EmptyString (String c s)); auto.
        by apply nullable_spec.
    + inversion H as [| |? ? s1 s2 Ha Hb| | | |]; subst.
      apply (MSeq r1 r2 (String c s1) s2); auto.
  - inversion H; subst; [apply MAltL|apply MAltR]; auto.
  - inversion H as [| |? ? s1 s2 Ha Hb| | | |]; subst.
    apply (MStarApp r (String c s1) s2); auto.
Qed.

Lemma deriv_complete (c : ascii) (r : regex) (w : string) :
  matches r w -> forall s, w = String c s -> matches (deriv c r) s.
Proof.
  intros H.
  induction H as [|c' rs Hc|r1 r2 s1 s2 H1 IH1 H2 IH2|r1 r2 s' H IH
                  |r1 r2 s' H IH|r|r s1 s2 H1 IH1 H2 IH2]; intros s Hw; cbn.
  - discriminate.
  - injection Hw as -> <-. rewrite Hc. constructor.
  - destruct s1 as [|c1 s1].
    + cbn in Hw. apply nullable_spec in H1. rewrite H1.
      apply MAltR. by apply IH2.
    + cbn in Hw. injection Hw as -> <-.
      destruct (nullable r1); [apply MAltL|]; constructor; auto.
  - apply MAltL. by apply IH.
  - apply MAltR. by apply IH.
  - discriminate.
  - destruct s1 as [|c1 s1].
    + cbn in Hw. by apply IH2.
    + cbn in Hw. injection Hw as -> <-. constructor; auto.
Qed.

Lemma simp_seq_spec (a b : regex) (s : string) :
  matches (match a, b with
           | RVoid, _ => RVoid
           | _, RVoid => RVoid
           | REps, s2 => s2
           | s1, s2 => RSeq s1 s2
           end) s <-> matches (RSeq a b) s.
Proof.
  assert (Hvoid : forall w, matches RVoid w -> False)
    by (intros w H; inversion H).
  assert (Hl : forall r w, matches (RSeq RVoid r) w -> False).
  { intros r w H. inversion H; subst. by eapply Hvoid. }
  assert (Hr : forall r w, matches (RSeq r RVoid) w -> False).
  { intros r w H. inversion H; subst. by eapply Hvoid. }
  assert (He : forall r w, matches r w <-> matches (RSeq REps r) w).
  { intros r w. split; intros H.
    - change w with (EmptyString +:+ w). constructor; [constructor|done].
    - inversion H as [| |? ? s1 s2 Ha Hb| | | |]; subst.
      inversion Ha; subst. done. }
  destruct a; destruct b; try tauto; try apply He;
    split; intros H; exfalso; eauto.
Qed.

Lemma simp_alt_spec (a b : regex) (s : string) :
  matches (match a, b with
           | RVoid, s2 => s2
           | s1, RVoid => s1
           | s1, s2 => RAlt s1 s2
           end) s <-> matches (RAlt a b) s.
Proof.
  assert (Hvoid : forall w, ~ matches RVoid w) by (intros w H; inversion H).
  assert (Hl : forall r w, matches r w <-> matches (RAlt RVoid r) w).
  { intros r w. split; intros H; [by apply MAltR|].
    inversion H; subst; [exfalso; by eapply Hvoid|done]. }
  assert (Hr : forall r w, matches r w <-> matches (RAlt r RVoid) w).
  { intros r w. split; intros H; [by apply MAltL|].
    inversion H; subst; [done|exfalso; by eapply Hvoid]. }
  destruct a; destruct b; try tauto; try apply Hl; try apply Hr.
Qed.

Lemma simp_spec (r : regex) : forall s, matches (simp r) s <-> matches r s.
Proof.
  induction r as [| |rs|r1 IH1 r2 IH2|r1 IH1 r2 IH2|r IH]; intros s;
    try tauto.
  - transitivity (matches (RSeq (simp r1) (simp r2)) s).
    + cbn [simp]. destruct (simp r1); destruct (simp r2);
        match goal with
        | |- _ <-> matches (RSeq ?a ?b) _ => exact (simp_seq_spec a b s)
        end.
    + split; intros H; inversion H; subst;
        (constructor; [by apply IH1|by apply IH2]).
  - transitivity (matches (RAlt (simp r1) (simp r2)) s).
    + cbn [simp]. destruct (simp r1); destruct (simp r2);
        match goal with
        | |- _ <-> matches (RAlt ?a ?b) _ => exact (simp_alt_spec a b s)
        end.
    + split; intros H; inversion H; subst;
        solve [apply MAltL; by apply IH1 | apply MAltR; by apply IH2].
Qed.

(** The derivative matcher decides the language of the expression. *)
Lemma full_match_spec (s : string) :
  forall r, full_match r s = true <-> matches r s.
Proof.
  induction s as [|c s IH]; intros r; cbn.
  - apply nullable_spec.
  - rewrite IH, simp_spec. split.
    + apply deriv_sound.
    + intros H. by eapply deriv_complete.
Qed.


Lemma matches_class (rs : list (ascii * ascii)) (s : string) :
  matches (RClass rs) s <->
  exists c, s = String c EmptyString /\ in_class c rs = true.
Proof.
  split.
  - intros H. inversion H; subst. eauto.
  - intros (c & -> & Hc). by constructor.
Qed.

Lemma matches_seq (r1 r2 : regex) (s : string) :
  matches (RSeq r1 r2) s <->
  exists s1 s2, s = s1 +:+ s2 /\ matches r1 s1 /\ matches r2 s2.
Proof.
  split.
  - intros H. inversion H; subst. eauto.
  - intros (s1 & s2 & -> & H1 & H2). by constructor.
Qed.

Lemma matches_star_class (rs : list (ascii * ascii)) (s : string) :
  matches (RStar (RClass rs)) s <-> all_in rs s = true.
Proof.
  split.
  - intros H. remember (RStar (RClass rs)) as r eqn:Hr.
    induction H as [|c rs' Hc|r1 r2 s1 s2 H1 IH1 H2 IH2|r1 r2 s H IH
                    |r1 r2 s H IH|r|r s1 s2 H1 IH1 H2 IH2];
      try discriminate; [done|].
    injection Hr as ->. inversion H1; subst. cbn.
    rewrite IH2 by done. by rewrite andb_true_r.
  - induction s as [|c s IH]; cbn; intros H; [constructor|].
    apply andb_true_iff in H as [Hc Hs].
    change (String c s) with (String c EmptyString +:+ s).
    constructor; [by constructor|by apply IH].
Qed.

Lemma matches_char (c : ascii) (s : string) :
  matches (RChar c) s <-> s = String c EmptyString.
Proof.
  unfold RChar. rewrite matches_class. split.
  - intros (c' & -> & Hc). f_equal. unfold in_class, in_range in Hc.
    cbn in Hc. rewrite orb_false_r in Hc.
    apply andb_true_iff in Hc as [H1 H2].
    apply Nat.leb_le in H1, H2.
    rewrite <- (ascii_nat_embedding c'), <- (ascii_nat_embedding c).
    f_equal. lia.
  - intros ->. exists c. split; [done|]. unfold in_class, in_range. cbn.
    by rewrite Nat.leb_refl.
Qed.

Lemma matches_plus_class (rs : list (ascii * ascii)) (s : string) :
  matches (RPlus (RClass rs)) s <->
  s <> EmptyString /\ all_in rs s = true.
Proof.
  unfold RPlus. rewrite matches_seq. split.
  - intros (s1 & s2 & -> & H1 & H2). apply matches_class in H1 as (c & -> & Hc).
    apply matches_star_class in H2. cbn. by rewrite Hc, H2.
  - intros [Hne Hall]. destruct s as [|c s]; [done|]. cbn in Hall.
    apply andb_true_iff in Hall as [Hc Hs].
    exists (String c EmptyString), s. split; [done|].
    split; [by constructor|by apply matches_star_class].
Qed.

Lemma matches_at_least_two (rs : list (ascii * ascii)) (s : string) :
  matches (RAtLeast 2 (RClass rs)) s <->
  (2 <= String.length s)%nat /\ all_in rs s = true.
Proof.
  cbn [RAtLeast]. rewrite matches_seq. split.
  - intros (s1 & s2 & -> & H1 & H2).
    apply matches_class in H1 as (c1 & -> & Hc1).
    apply matches_seq in H2 as (s3 & s4 & -> & H3 & H4).
    apply matches_class in H3 as (c2 & -> & Hc2).
    apply matches_star_class in H4. cbn. rewrite Hc1, Hc2, H4.
    split; [lia|done].
  - intros [Hlen Hall]. destruct s as [|c1 [|c2 s]]; cbn in Hlen; try lia.
    cbn in Hall. apply andb_true_iff in Hall as [Hc1 Hall].
    apply andb_true_iff in Hall as [Hc2 Hs].
    exists (String c1 EmptyString), (String c2 s). split; [done|].
    split; [by constructor|]. apply matches_seq.
    exists (String c2 EmptyString), s. split; [done|].
    split; [by constructor|by apply matches_star_class].
Qed.

Lemma IsValidEmail_parts (email : string) :
  IsValidEmail email = true <->
  exists local domain suffix,
    email = local +:+ String "@" (domain +:+ String "." suffix) /\
    local <> EmptyString /\ all_in local_ranges local = true /\
    domain <> EmptyString /\ all_in domain_ranges domain = true /\
    (2 <= String.length suffix)%nat /\ all_in suffix_ranges suffix = true.
Proof.
  unfold IsValidEmail. rewrite full_match_spec. unfold emailRegex.
  rewrite matches_seq. split.
  - intros (local & rest & -> & Hl & Hrest).
    apply matches_plus_class in Hl as [Hl1 Hl2].
    apply matches_seq in Hrest as (at_ & rest2 & -> & Hat & Hrest).
    apply matches_char in Hat as ->.
    apply matches_seq in Hrest as (domain & rest3 & -> & Hd & Hrest).
    apply matches_plus_class in Hd as [Hd1 Hd2].
    apply matches_seq in Hrest as (dot & suffix & -> & Hdot & Hsuf).
    apply matches_char in Hdot as ->.
    apply matches_at_least_two in Hsuf as [Hs1 Hs2].
    exists local, domain, suffix. cbn. by repeat split.
  - intros (local & domain & suffix & -> & Hl1 & Hl2 & Hd1 & Hd2 & Hs1 & Hs2).
    exists local, (String "@" (domain +:+ String "." suffix)).
    split; [done|]. split; [by apply matches_plus_class|].
    apply matches_seq.
    exists (String "@" EmptyString), (domain +:+ String "." suffix).
    split; [done|]. split; [by apply matches_char|].
    apply matches_seq. exists domain, (String "." suffix).
    split; [done|]. split; [by apply matches_plus_class|].
    apply matches_seq. exists (String "." EmptyString), suffix.
    split; [done|]. split; [by apply matches_char|].
    by apply matches_at_least_two.
Qed.

(** X19.  [IsValidEmail] accepts exactly the strings of the form
    local@domain.suffix where the local part is a non-empty run of bytes
    from A-z, 0-9 and [._%+-], the domain a non-empty run of lower-case
    letters, digits, dots and hyphens, and the suffix at least two
    lower-case letters. *)
Theorem IsValidEmail_shape (email : string) :
  IsValidEmail email = true <->
  exists local domain suffix,
    email = local +:+ String "@" (domain +:+ String "." suffix) /\
    local <> EmptyString /\ all_in local_ranges local = true /\
    domain <> EmptyString /\ all_in domain_ranges domain = true /\
    (2 <= String.length suffix)%nat /\ all_in suffix_ranges suffix = true.
Proof. apply IsValidEmail_parts. Qed.

Lemma occurrences_append (c : ascii) (s1 s2 : string) :
  occurrences c (s1 +:+ s2) = (occurrences c s1 + occurrences c s2)%nat.
Proof.
  induction s1 as [|c' s1 IH]; [done|]. cbn. rewrite IH. lia.
Qed.

Lemma occurrences_outside (c : ascii) (rs : list (ascii * ascii))
    (s : string) :
  in_class c rs = false -> all_in rs s = true -> occurrences c s = O.
Proof.
  intros Hc. induction s as [|c' s IH]; [done|]. cbn. intros Hall.
  apply andb_true_iff in Hall as [Hc' Hs]. rewrite IH by done.
  destruct (Ascii.eqb_spec c c') as [->|_]; [congruence|done].
Qed.

Lemma length_append (s1 s2 : string) :
  String.length (s1 +:+ s2) = (String.length s1 + String.length s2)%nat.
Proof. induction s1 as [|c s1 IH]; [done|]. cbn. by rewrite IH. Qed.

Lemma all_in_append (rs : list (ascii * ascii)) (s1 s2 : string) :
  all_in rs (s1 +:+ s2) = (all_in rs s1 && all_in rs s2)%bool.
Proof.
  induction s1 as [|c s1 IH]; [done|]. cbn. rewrite IH.
  by rewrite andb_assoc.
Qed.

Lemma all_in_weaken (rs rs' : list (ascii * ascii)) (s : string) :
  (forall c, in_class c rs = true -> in_class c rs' = true) ->
  all_in rs s = true -> all_in rs' s = true.
Proof.
  intros Hsub. induction s as [|c s IH]; [done|]. cbn. intros H.
  apply andb_true_iff in H as [Hc Hs]. by rewrite (Hsub c Hc), IH.
Qed.

(** A statement about one byte and fixed classes is settled by going
    through the 256 bytes. *)
Ltac by_bytes c :=
  destruct c as [[] [] [] [] [] [] [] []]; vm_compute; intros ?H;
  solve [reflexivity | discriminate].

(** X20.  Every address [IsValidEmail] accepts has exactly one [@], is at
    least six bytes long, and consists only of ASCII letters, digits, the
    bytes between [Z] and [a], and [.], [_], [%], [+], [-], [@]: no space,
    no control byte, nothing outside ASCII. *)
Theorem IsValidEmail_necessary (email : string) :
  IsValidEmail email = true ->
  occurrences "@" email = 1%nat /\
  (6 <= String.length email)%nat /\
  all_in (("@", "@")%char :: local_ranges) email = true.
Proof.
  intros H. apply IsValidEmail_parts in H
    as (local & domain & suffix & -> & Hl1 & Hl2 & Hd1 & Hd2 & Hs1 & Hs2).
  assert (Hweak : forall rs s,
            (forall c, in_class c rs = true -> in_class c local_ranges = true) ->
            all_in rs s = true ->
            all_in (("@", "@")%char :: local_ranges) s = true).
  { intros rs s Hsub. apply all_in_weaken. intros c Hc.
    apply Hsub in Hc. unfold in_class in *. cbn [existsb].
    rewrite Hc. apply orb_true_r. }
  split; [|split].
  - rewrite occurrences_append. cbn [occurrences].
    rewrite occurrences_append. cbn [occurrences].
    rewrite (occurrences_outside "@" local_ranges local) by done.
    rewrite (occurrences_outside "@" domain_ranges domain) by done.
    rewrite (occurrences_outside "@" suffix_ranges suffix) by done.
    reflexivity.
  - rewrite length_append. cbn [String.length]. rewrite length_append.
    cbn [String.length].
    destruct local; [done|]. destruct domain; [done|]. cbn. lia.
  - rewrite all_in_append. cbn [all_in]. rewrite all_in_append.
    cbn [all_in].
    rewrite (Hweak local_ranges local) by done.
    rewrite (Hweak domain_ranges domain); [|intros c; by_bytes c|done].
    rewrite (Hweak suffix_ranges suffix); [|intros c; by_bytes c|done].
    reflexivity.
Qed.

Lemma IsValidEmail_necessary_witness :
  occurrences "@" "alice@example.com" = 1%nat.
Proof.
  apply (IsValidEmail_necessary "alice@example.com").
  vm_compute. reflexivity.
Defined.

End PatternFacts.

(** ** The hub *)

Section HubFacts.
Import Chan Hub.
Local Open Scope list_scope.

Lemma registered_lookup (m : ClientManager) (c : ptr) :
  c ∈ registered m <-> is_Some (clients m !! c).
Proof.
  unfold registered. rewrite list_elem_of_fmap. split.
  - intros [[k b] [-> Hin]]. apply elem_of_map_to_list in Hin. eauto.
  - intros [b Hb]. exists (c, b). split; [done|]. by apply elem_of_map_to_list.
Qed.

Lemma registered_NoDup (m : ClientManager) : NoDup (registered m).
Proof. apply NoDup_fst_map_to_list. Qed.

Lemma manager_consistent : consistent manager.
Proof. intros c b H. cbn in H. by rewrite lookup_empty in H. Qed.

(** One pass of the broadcast loop over keys that are all registered. *)
Lemma broadcast_range_spec (keys : list ptr) :
  forall (message : string) (m : ClientManager),
    NoDup keys ->
    (forall c, c ∈ keys -> is_Some (clients m !! c)) ->
    consistent m ->
    exists m',
      broadcast_range keys message m = Done m' /\
      consistent m' /\
      (forall c, c ∉ keys ->
         clients m' !! c = clients m !! c /\ send m' c = send m c) /\
      (forall c, c ∈ keys -> full (send m c) = false ->
         clients m' !! c = clients m !! c /\
         send m' c = {| buf := buf (send m c) ++ [message]; closed := false |}) /\
      (forall c, c ∈ keys -> full (send m c) = true ->
         clients m' !! c = None /\
         send m' c = {| buf := buf (send m c); closed := true |}) /\
      (exists l, log m' = log m ++ l /\
         forall c, length (filter (fun e => is_forced c e = true) l) =
                   if (bool_decide (c ∈ keys) && full (send m c))%bool
                   then 1%nat else 0%nat).
Proof.
  induction keys as [|k keys IH]; intros message m Hnd Hreg Hcons.
  - exists m. cbn. split; [done|]. split; [done|]. split; [done|].
    split; [|split].
    + intros c Hc. by apply elem_of_nil in Hc.
    + intros c Hc. by apply elem_of_nil in Hc.
    + exists []. split; [by rewrite app_nil_r|]. intros c. cbn.
      rewrite bool_decide_eq_false_2; [done|apply not_elem_of_nil].
  - apply NoDup_cons in Hnd as [Hk Hnd].
    destruct (Hreg k) as [b Hb]; [left|].
    destruct (Hcons k b Hb) as [-> Hopen].
    cbn [broadcast_range]. unfold try_send, close. rewrite Hopen.
    destruct (full (send m k)) eqn:Hfull.
    + (* queue full: the session is dropped *)
      set (m1 := {| clients := delete k (clients m);
                    send := <[k := {| buf := buf (send m k); closed := true |}]> (send m);
                    log := log m ++ [ClientForciblyDisconnected k] |}).
      assert (Hcons1 : consistent m1).
      { intros c b' Hc. cbn in Hc. destruct (decide (c = k)) as [->|Hne].
        - by rewrite lookup_delete_eq in Hc.
        - rewrite lookup_delete_ne in Hc by done. cbn.
          rewrite fn_lookup_insert_ne by done. by apply Hcons. }
      assert (Hreg1 : forall c, c ∈ keys -> is_Some (clients m1 !! c)).
      { intros c Hc. cbn. rewrite lookup_delete_ne; [apply Hreg; by right|].
        intros ->. done. }
      destruct (IH message m1 Hnd Hreg1 Hcons1)
        as (m' & Hrun & Hcons' & Hout & Hsent & Hfullc & l & Hlog & Hcount).
      exists m'. split; [exact Hrun|]. split; [exact Hcons'|].
      split; [|split; [|split]].
      * intros c Hc. apply not_elem_of_cons in Hc as [Hne Hc].
        destruct (Hout c Hc) as [H1 H2]. rewrite H1, H2. cbn.
        rewrite lookup_delete_ne by done. by rewrite fn_lookup_insert_ne.
      * intros c Hc Hf. apply elem_of_cons in Hc as [->|Hc]; [congruence|].
        assert (c <> k) by (intros ->; done).
        assert (Hs : send m1 c = send m c)
          by (cbn; by rewrite fn_lookup_insert_ne).
        destruct (Hsent c Hc) as [H1 H2]; [by rewrite Hs|].
        rewrite H1, H2, Hs. cbn. by rewrite lookup_delete_ne.
      * intros c Hc Hf. apply elem_of_cons in Hc as [->|Hc].
        -- destruct (Hout k Hk) as [H1 H2]. rewrite H1, H2. cbn.
           by rewrite lookup_delete_eq, fn_lookup_insert.
        -- assert (c <> k) by (intros ->; done).
           assert (Hs : send m1 c = send m c)
             by (cbn; by rewrite fn_lookup_insert_ne).
           destruct (Hfullc c Hc) as [H1 H2]; [by rewrite Hs|].
           by rewrite H1, H2, Hs.
      * exists (ClientForciblyDisconnected k :: l). split.
        { rewrite Hlog. cbn. by rewrite <- app_assoc. }
        intros c. rewrite filter_cons. cbn [is_forced].
        specialize (Hcount c). destruct (decide (c = k)) as [->|Hne].
        -- rewrite Nat.eqb_refl. rewrite decide_True by done. cbn [length].
           rewrite Hcount. rewrite (bool_decide_eq_false_2 (k ∈ keys)) by done.
           rewrite bool_decide_eq_true_2 by left. by rewrite Hfull.
        -- assert (Hneb : Nat.eqb c k = false) by by apply Nat.eqb_neq.
           rewrite Hneb. rewrite decide_False by done. rewrite Hcount.
           cbn. rewrite fn_lookup_insert_ne by done.
           destruct (decide (c ∈ keys)) as [Hin|Hnin].
           ++ rewrite !bool_decide_eq_true_2; [done|by right|done].
           ++ rewrite !bool_decide_eq_false_2; [done| |done].
              intros [?|?]%elem_of_cons; done.
    + (* room in the queue: the message is queued *)
      set (m1 := {| clients := clients m;
                    send := <[k := {| buf := buf (send m k) ++ [message];
                                      closed := false |}]> (send m);
                    log := log m |}).
      assert (Hcons1 : consistent m1).
      { intros c b' Hc. cbn in Hc. destruct (Hcons c b' Hc) as [-> Ho].
        split; [done|]. cbn. destruct (decide (c = k)) as [->|Hne].
        - by rewrite fn_lookup_insert.
        - by rewrite fn_lookup_insert_ne. }
      assert (Hreg1 : forall c, c ∈ keys -> is_Some (clients m1 !! c)).
      { intros c Hc. cbn. apply Hreg. by right. }
      destruct (IH message m1 Hnd Hreg1 Hcons1)
        as (m' & Hrun & Hcons' & Hout & Hsent & Hfullc & l & Hlog & Hcount).
      exists m'. split; [exact Hrun|]. split; [exact Hcons'|].
      split; [|split; [|split]].
      * intros c Hc. apply not_elem_of_cons in Hc as [Hne Hc].
        destruct (Hout c Hc) as [H1 H2]. rewrite H1, H2. cbn.
        by rewrite fn_lookup_insert_ne.
      * intros c Hc Hf. apply elem_of_cons in Hc as [->|Hc].
        -- destruct (Hout k Hk) as [H1 H2]. rewrite H1, H2. cbn.
           by rewrite fn_lookup_insert.
        -- assert (c <> k) by (intros ->; done).
           assert (Hs : send m1 c = send m c)
             by (cbn; by rewrite fn_lookup_insert_ne).
           destruct (Hsent c Hc) as [H1 H2]; [by rewrite Hs|].
           by rewrite H1, H2, Hs.
      * intros c Hc Hf. apply elem_of_cons in Hc as [->|Hc]; [congruence|].
        assert (c <> k) by (intros ->; done).
        assert (Hs : send m1 c = send m c)
          by (cbn; by rewrite fn_lookup_insert_ne).
        destruct (Hfullc c Hc) as [H1 H2]; [by rewrite Hs|].
        by rewrite H1, H2, Hs.
      * exists l. split; [exact Hlog|]. intros c. rewrite (Hcount c). cbn.
        destruct (decide (c = k)) as [->|Hne].
        -- rewrite (bool_decide_eq_false_2 (k ∈ keys)) by done.
           rewrite bool_decide_eq_true_2 by left. by rewrite Hfull.
        -- rewrite fn_lookup_insert_ne by done.
           destruct (decide (c ∈ keys)) as [Hin|Hnin].
           ++ rewrite !bool_decide_eq_true_2; [done|by right|done].
           ++ rewrite !bool_decide_eq_false_2; [done| |done].
              intros [?|?]%elem_of_cons; done.
Qed.

Lemma run_consistent (m : ClientManager) (r : request) (m' : ClientManager) :
  consistent m -> run m r = Done m' -> consistent m'.
Proof.
  intros Hcons Hrun. destruct r as [c|c|message]; cbn in Hrun.
  - unfold Chan.send in Hrun.
    destruct (closed (send m c)) eqn:Hcl; [done|].
    destruct (full (send m c)) eqn:Hf; [done|].
    injection Hrun as <-. intros c' b Hc'. cbn in *.
    destruct (decide (c' = c)) as [->|Hne].
    + rewrite lookup_insert_eq in Hc'. rewrite fn_lookup_insert.
      by injection Hc' as <-.
    + rewrite lookup_insert_ne in Hc' by done.
      rewrite fn_lookup_insert_ne by done. by apply Hcons.
  - destruct (clients m !! c) as [b|] eqn:Hc.
    + unfold close in Hrun. destruct (closed (send m c)); [done|].
      injection Hrun as <-. intros c' b' Hc'. cbn in *.
      destruct (decide (c' = c)) as [->|Hne].
      * by rewrite lookup_delete_eq in Hc'.
      * rewrite lookup_delete_ne in Hc' by done.
        rewrite fn_lookup_insert_ne by done. by apply Hcons.
    + by injection Hrun as <-.
  - destruct (broadcast_range_spec (registered m) message m)
      as (m1 & Hrun1 & Hcons1 & _).
    + apply registered_NoDup.
    + intros c. apply registered_lookup.
    + done.
    + rewrite Hrun1 in Hrun. by injection Hrun as <-.
Qed.

Lemma step_consistent (m : ClientManager) (e : event) (m' : ClientManager) :
  consistent m -> step m e = Done m' -> consistent m'.
Proof.
  intros Hcons Hstep. destruct e as [r|c|c message]; cbn in Hstep.
  - by eapply run_consistent.
  - unfold recv in Hstep. destruct (buf (send m c)) as [|x rest] eqn:Hbuf.
    + by injection Hstep as <-.
    + injection Hstep as <-. intros c' b Hc'. cbn in *.
      destruct (Hcons c' b Hc') as [-> Ho]. split; [done|].
      destruct (decide (c' = c)) as [->|Hne].
      * by rewrite fn_lookup_insert.
      * by rewrite fn_lookup_insert_ne.
  - unfold Chan.send in Hstep.
    destruct (closed (send m c)) eqn:Hcl; [done|].
    destruct (full (send m c)) eqn:Hf; [done|].
    injection Hstep as <-. intros c' b Hc'. cbn in *.
    destruct (Hcons c' b Hc') as [-> Ho]. split; [done|].
    destruct (decide (c' = c)) as [->|Hne].
    + by rewrite fn_lookup_insert.
    + by rewrite fn_lookup_insert_ne.
Qed.

Lemma steps_consistent (es : list event) :
  forall m m', consistent m -> steps m es = Done m' -> consistent m'.
Proof.
  induction es as [|e es IH]; intros m m' Hcons Hsteps; cbn in Hsteps.
  - by injection Hsteps as <-.
  - destruct (step m e) as [m1|m1|] eqn:Hstep; [|done|done].
    eapply IH; [|exact Hsteps]. by eapply step_consistent.
Qed.

(** A dropped session stays dropped, and nothing is added to its queue, for
    as long as it is not registered again. *)
Lemma step_dropped (c : ptr) (m : ClientManager) (e : event)
    (m' : ClientManager) :
  consistent m -> dropped c m -> is_register c e = false ->
  step m e = Done m' ->
  dropped c m' /\ buf (send m' c) `suffix_of` buf (send m c).
Proof.
  intros Hcons [Hnone Hclosed] Hreg Hstep.
  destruct e as [[c'|c'|message]|c'|c' message]; cbn in Hstep, Hreg.
  - apply Nat.eqb_neq in Hreg. unfold Chan.send in Hstep.
    destruct (closed (send m c')); [done|].
    destruct (full (send m c')); [done|]. injection Hstep as <-.
    unfold dropped. cbn. rewrite lookup_insert_ne by done.
    by rewrite fn_lookup_insert_ne by done.
  - destruct (clients m !! c') as [b|] eqn:Hc'.
    + assert (c' <> c) by (intros ->; congruence).
      unfold close in Hstep. destruct (closed (send m c')); [done|].
      injection Hstep as <-. unfold dropped. cbn.
      rewrite lookup_delete_ne by done.
      by rewrite fn_lookup_insert_ne by done.
    + by injection Hstep as <-.
  - destruct (broadcast_range_spec (registered m) message m)
      as (m1 & Hrun1 & _ & Hout & _).
    + apply registered_NoDup.
    + intros k. apply registered_lookup.
    + done.
    + rewrite Hrun1 in Hstep. injection Hstep as <-.
      destruct (Hout c) as [H1 H2].
      { rewrite registered_lookup, Hnone. by intros [? ?]. }
      unfold dropped. by rewrite H1, H2.
  - unfold recv in Hstep. destruct (buf (send m c')) as [|x rest] eqn:Hbuf.
    + by injection Hstep as <-.
    + injection Hstep as <-. unfold dropped. cbn.
      destruct (decide (c = c')) as [->|Hne].
      * rewrite fn_lookup_insert. cbn. rewrite Hbuf.
        split; [done|]. by apply suffix_cons_r.
      * by rewrite fn_lookup_insert_ne by done.
  - unfold Chan.send in Hstep.
    destruct (closed (send m c')) eqn:Hcl; [done|].
    destruct (full (send m c')); [done|]. injection Hstep as <-.
    assert (c' <> c) by (intros ->; congruence).
    unfold dropped. cbn. by rewrite fn_lookup_insert_ne by done.
Qed.

Lemma steps_dropped (c : ptr) (es : list event) :
  forall m m',
    consistent m -> dropped c m ->
    forallb (fun e => negb (is_register c e)) es = true ->
    steps m es = Done m' ->
    dropped c m' /\ buf (send m' c) `suffix_of` buf (send m c).
Proof.
  induction es as [|e es IH]; intros m m' Hcons Hdrop Hno Hsteps;
    cbn in Hsteps, Hno.
  - by injection Hsteps as <-.
  - apply andb_true_iff in Hno as [He Hno]. apply negb_true_iff in He.
    destruct (step m e) as [m1|m1|] eqn:Hstep; [|done|done].
    destruct (step_dropped c m e m1 Hcons Hdrop He Hstep) as [Hdrop1 Hsuf1].
    destruct (IH m1 m' (step_consistent _ _ _ Hcons Hstep) Hdrop1 Hno Hsteps)
      as [Hdrop' Hsuf'].
    split; [done|]. by etrans.
Qed.

(** C2.  In every state the hub can reach, a broadcast pass completes
    without parking or panicking.  Every registered session whose queue has
    room gets the payload appended and stays registered.  Every registered
    session whose queue is full had an open queue, is removed from the
    registry, has its queue closed by exactly one forced disconnect of this
    pass, and from then on, whatever happens short of registering it
    again, it stays out of the registry with a closed queue to which
    nothing is added.  Sessions that are not registered are not touched. *)
Theorem broadcast_backpressure (history : list event) (m : ClientManager)
    (message : string) :
  steps manager history = Done m ->
  exists m',
    run m (Broadcast message) = Done m' /\
    (forall c, is_Some (clients m !! c) -> full (send m c) = false ->
       is_Some (clients m' !! c) /\
       send m' c = {| buf := buf (send m c) ++ [message]; closed := false |}) /\
    (forall c, is_Some (clients m !! c) -> full (send m c) = true ->
       closed (send m c) = false /\
       clients m' !! c = None /\
       send m' c = {| buf := buf (send m c); closed := true |} /\
       (exists l, log m' = log m ++ l /\
          length (filter (fun e => is_forced c e = true) l) = 1%nat) /\
       (forall later m'',
          forallb (fun e => negb (is_register c e)) later = true ->
          steps m' later = Done m'' ->
          clients m'' !! c = None /\
          closed (send m'' c) = true /\
          buf (send m'' c) `suffix_of` buf (send m c))) /\
    (forall c, clients m !! c = None ->
       clients m' !! c = None /\ send m' c = send m c).
Proof.
  intros Hreach.
  assert (Hcons : consistent m)
    by (eapply steps_consistent; [apply manager_consistent|exact Hreach]).
  destruct (broadcast_range_spec (registered m) message m)
    as (m' & Hrun & Hcons' & Hout & Hsent & Hfull & l & Hlog & Hcount).
  { apply registered_NoDup. }
  { intros c. apply registered_lookup. }
  { exact Hcons. }
  exists m'. split; [exact Hrun|]. split; [|split].
  - intros c Hc Hf. apply registered_lookup in Hc as Hin.
    destruct (Hsent c Hin Hf) as [H1 H2]. by rewrite H1, H2.
  - intros c Hc Hf. apply registered_lookup in Hc as Hin.
    destruct (Hfull c Hin Hf) as [H1 H2].
    destruct Hc as [b Hb]. destruct (Hcons c b Hb) as [_ Hopen].
    split; [exact Hopen|]. split; [exact H1|]. split; [exact H2|]. split.
    + exists l. split; [exact Hlog|]. rewrite (Hcount c).
      by rewrite bool_decide_eq_true_2, Hf.
    + intros later m'' Hno Hlater.
      assert (Hdrop : dropped c m') by (split; [done|by rewrite H2]).
      destruct (steps_dropped c later m' m'' Hcons' Hdrop Hno Hlater)
        as [[Hnone Hclosed] Hsuf].
      split; [done|]. split; [done|]. by rewrite H2 in Hsuf.
  - intros c Hc. destruct (Hout c) as [H1 H2].
    { rewrite registered_lookup, Hc. by intros [? ?]. }
    by rewrite H1, H2, Hc.
Qed.

(** A full queue is dropped by the pass while the other session gets the
    payload. *)
Lemma broadcast_backpressure_witness :
  exists m',
    run Scenario.busy_hub (Broadcast "tick") = Done m' /\
    clients m' !! 1%nat = None /\
    closed (send m' 1%nat) = true /\
    send m' 2%nat = {| buf := [welcome; "tick"]; closed := false |}.
Proof.
  destruct (broadcast_backpressure Scenario.busy_history Scenario.busy_hub
              "tick") as (m' & Hrun & Hroom & Hfull & _).
  { vm_compute. reflexivity. }
  exists m'. split; [exact Hrun|].
  destruct (Hfull 1%nat) as (_ & Hnone & Hsend & _).
  { vm_compute. eauto. }
  { vm_compute. reflexivity. }
  destruct (Hroom 2%nat) as (_ & Hsend2).
  { vm_compute. eauto. }
  { vm_compute. reflexivity. }
  split; [exact Hnone|]. split; [by rewrite Hsend|].
  rewrite Hsend2. vm_compute. reflexivity.
Defined.

(** C4.  In every state the hub can reach through register, unregister
    and broadcast requests (interleaved with the pumps' queue traffic), the
    registry holds each session at most once and the connected count is
    the number of distinct sessions; registering a session that is present
    leaves the registry as it was; unregistering an absent session changes
    nothing and does not fault; unregistering never faults, removes the
    session, closes its queue if it was present, and a second unregister
    is then a no-op that leaves the queue closed once. *)
Theorem registry_unique_unregister_idempotent (history : list event)
    (m : ClientManager) :
  steps manager history = Done m ->
  NoDup (registered m) /\
  GetConnectedClientsCount m = length (registered m) /\
  (forall c m', is_Some (clients m !! c) ->
     run m (Register c) = Done m' \/ run m (Register c) = Blocked m' ->
     clients m' = clients m /\
     GetConnectedClientsCount m' = GetConnectedClientsCount m) /\
  (forall c, clients m !! c = None -> run m (Unregister c) = Done m) /\
  (forall c, exists m',
     run m (Unregister c) = Done m' /\
     clients m' !! c = None /\
     (is_Some (clients m !! c) ->
        send m' c = {| buf := buf (send m c); closed := true |}) /\
     run m' (Unregister c) = Done m').
Proof.
  intros Hreach.
  assert (Hcons : consistent m)
    by (eapply steps_consistent; [apply manager_consistent|exact Hreach]).
  split; [apply registered_NoDup|]. split.
  { unfold GetConnectedClientsCount, registered.
    by rewrite length_fmap, length_map_to_list. }
  split; [|split].
  - intros c m' [b Hb] Hrun. destruct (Hcons c b Hb) as [-> Hopen].
    assert (Hsame : <[c := true]> (clients m) = clients m)
      by by apply insert_id.
    cbn in Hrun. unfold Chan.send in Hrun. cbn in Hrun. rewrite Hopen in Hrun.
    destruct (full (send m c));
      destruct Hrun as [Hrun|Hrun]; try done; injection Hrun as <-;
      unfold GetConnectedClientsCount; cbn; by rewrite Hsame.
  - intros c Hc. cbn. by rewrite Hc.
  - intros c. cbn. destruct (clients m !! c) as [b|] eqn:Hc.
    + destruct (Hcons c b Hc) as [_ Hopen]. unfold close. rewrite Hopen.
      eexists. split; [reflexivity|]. cbn. rewrite lookup_delete_eq.
      split; [done|]. split; [|done]. intros _. by rewrite fn_lookup_insert.
    + exists m. rewrite Hc. split; [done|]. split; [done|].
      split; [|done]. by intros [? ?].
Qed.

(** After two sessions registered, registering the first again keeps the
    count at two, and unregistering it twice is safe. *)
Lemma registry_unique_unregister_idempotent_witness :
  GetConnectedClientsCount
    (Scenario.after [Serve (Register 1%nat); Serve (Register 2%nat);
                     Serve (Register 1%nat)]) = 2%nat /\
  exists m',
    run (Scenario.after [Serve (Register 1%nat); Serve (Register 2%nat)])
      (Unregister 1%nat) = Done m' /\
    run m' (Unregister 1%nat) = Done m'.
Proof.
  split; [vm_compute; reflexivity|].
  destruct (registry_unique_unregister_idempotent
              [Serve (Register 1%nat); Serve (Register 2%nat)]
              (Scenario.after [Serve (Register 1%nat); Serve (Register 2%nat)]))
    as (_ & _ & _ & _ & Hun).
  { vm_compute. reflexivity. }
  destruct (Hun 1%nat) as (m' & H1 & _ & _ & H2).
  exists m'. split; [exact H1|exact H2].
Defined.

End HubFacts.

(** ** The store *)

Section StoreFacts.
Import Store.
Local Open Scope list_scope.

Lemma unique_tokens_same_row (rows : list AuthToken) (t r : AuthToken) :
  NoDup (t_token <$> rows) -> t ∈ rows -> r ∈ rows ->
  t_token r = t_token t -> r = t.
Proof.
  induction rows as [|x rows IH]; intros Hnd Ht Hr Heq.
  - by apply elem_of_nil in Ht.
  - rewrite fmap_cons in Hnd. apply NoDup_cons in Hnd as [Hx Hnd].
    apply elem_of_cons in Ht as [->|Ht]; apply elem_of_cons in Hr as [->|Hr].
    + done.
    + exfalso. apply Hx. rewrite <- Heq. by apply list_elem_of_fmap_2.
    + exfalso. apply Hx. rewrite Heq. by apply list_elem_of_fmap_2.
    + by apply IH.
Qed.

Lemma select_token_rows_none (d : Database) (now : Z) (token : string)
    (rows : list AuthToken) :
  (forall r, r ∈ rows -> t_token r = token -> ~ now < t_expires_at r) ->
  select_token_rows d now token rows = None.
Proof.
  induction rows as [|x rows IH]; intros Hexp; [done|]. cbn.
  destruct (String.eqb (t_token x) token) eqn:Heq; cbn.
  - apply String.eqb_eq in Heq.
    destruct (Z.ltb_spec now (t_expires_at x)) as [Hlt|Hge].
    + exfalso. apply (Hexp x); [left|done|done].
    + apply IH. intros r Hr. apply Hexp. by right.
  - apply IH. intros r Hr. apply Hexp. by right.
Qed.

Lemma select_token_rows_found (d : Database) (now : Z) (rows : list AuthToken)
    (t : AuthToken) (u : User) :
  NoDup (t_token <$> rows) -> t ∈ rows ->
  now < t_expires_at t -> owner d t = Some u ->
  select_token_rows d now (t_token t) rows
  = Some (t_id t, u_username u, t_ip_address t).
Proof.
  induction rows as [|x rows IH]; intros Hnd Ht Hlt Hown.
  - by apply elem_of_nil in Ht.
  - rewrite fmap_cons in Hnd. apply NoDup_cons in Hnd as [Hx Hnd]. cbn.
    apply elem_of_cons in Ht as [->|Ht].
    + rewrite String.eqb_refl. cbn.
      destruct (Z.ltb_spec now (t_expires_at x)); [|lia]. by rewrite Hown.
    + destruct (String.eqb (t_token x) (t_token t)) eqn:Heq.
      * apply String.eqb_eq in Heq. exfalso. apply Hx. rewrite Heq.
        by apply list_elem_of_fmap_2.
      * cbn. by apply IH.
Qed.

(** The lookup of a stored token that has an owner succeeds exactly while
    the clock is before its expiry. *)
Lemma select_token_iff (d : Database) (now : Z) (t : AuthToken) (u : User) :
  unique_tokens d -> t ∈ auth_tokens d -> owner d t = Some u ->
  (now < t_expires_at t ->
     select_token d now (t_token t)
     = Some (t_id t, u_username u, t_ip_address t)) /\
  (~ now < t_expires_at t -> select_token d now (t_token t) = None).
Proof.
  intros Huniq Ht Hown. split; intros Hnow.
  - by apply select_token_rows_found.
  - apply select_token_rows_none. intros r Hr Heq.
    by rewrite (unique_tokens_same_row _ t r Huniq Ht Hr Heq).
Qed.

(** An accepted token insert appends one row that expires seven days after
    its creation, and keeps tokens unique. *)
Lemma insert_token_row (d : Database) (now uid : Z) (token ip : string)
    (d' : Database) :
  insert_token d now uid token ip = (d', true) ->
  users d' = users d /\
  auth_tokens d' = auth_tokens d ++
    [{| t_id := auth_tokens_id_seq d; t_user_id := Some uid;
        t_token := token; t_ip_address := Some ip; t_created_at := now;
        t_expires_at := now + seven_days; t_last_used_at := None;
        t_is_revoked := false |}] /\
  (exists u, find (fun u => Z.eqb (u_id u) uid) (users d) = Some u) /\
  (unique_tokens d -> unique_tokens d').
Proof.
  unfold insert_token.
  destruct (existsb (fun t => Z.eqb (t_id t) (auth_tokens_id_seq d))
              (auth_tokens d)); cbn; [congruence|].
  destruct (existsb (fun u => Z.eqb (u_id u) uid) (users d)) eqn:Hu; cbn;
    [|congruence].
  destruct (existsb (fun t => String.eqb (t_token t) token) (auth_tokens d))
    eqn:Ht; cbn; [congruence|].
  intros H. injection H as <-. cbn. split; [done|]. split; [done|]. split.
  - apply existsb_exists in Hu as (u & Hin & Hid).
    destruct (find (fun u => Z.eqb (u_id u) uid) (users d)) as [u'|] eqn:Hf;
      [eauto|].
    eapply find_none in Hf; [|exact Hin]. cbn in Hf. congruence.
  - unfold unique_tokens. cbn. intros Hnd. rewrite fmap_app. cbn.
    apply NoDup_app. split; [done|]. split; [|apply NoDup_singleton].
    intros x Hx Hx'. apply list_elem_of_singleton in Hx'. subst x.
    apply list_elem_of_fmap in Hx as (r & Hr1 & Hr2).
    assert (Hex : existsb (fun t => String.eqb (t_token t) token)
                    (auth_tokens d) = true).
    { apply existsb_exists. exists r. split; [by apply list_elem_of_In|].
      rewrite <- Hr1. apply String.eqb_refl. }
    congruence.
Qed.

Lemma update_token_usage_tokens (d : Database) (now : Z) (ip : string)
    (id : Z) :
  t_token <$> auth_tokens (update_token_usage d now ip id)
  = t_token <$> auth_tokens d.
Proof.
  cbn. induction (auth_tokens d) as [|x rows IH]; [done|]. cbn.
  f_equal; [|exact IH]. by destruct (Z.eqb (t_id x) id).
Qed.

Lemma update_token_usage_row (d : Database) (now : Z) (ip : string) (id : Z)
    (t' : AuthToken) :
  t' ∈ auth_tokens (update_token_usage d now ip id) ->
  exists t, t ∈ auth_tokens d /\ t_token t' = t_token t /\ t_id t' = t_id t /\
    (t_id t = id ->
       t_ip_address t' = Some ip /\ t_last_used_at t' = Some now).
Proof.
  cbn. intros Hin. apply list_elem_of_In, in_map_iff in Hin as (t & <- & Ht).
  apply list_elem_of_In in Ht.
  exists t. split; [done|]. destruct (Z.eqb_spec (t_id t) id); cbn.
  - by repeat split.
  - by repeat split.
Qed.

(** What an insert into [users] does to the tables. *)
Lemma insert_user_cases (d : Database) (now : Z) (name hash email : string)
    (d' : Database) (ok : bool) :
  insert_user d now name hash email = (d', ok) ->
  auth_tokens d' = auth_tokens d /\
  users d' =
    users d ++
    (if ok
     then [{| u_id := users_id_seq d; u_username := name;
              u_password_hash := hash; u_email := Some email;
              u_created_at := now; u_last_login := None |}]
     else []).
Proof.
  unfold insert_user.
  destruct (existsb (fun u => Z.eqb (u_id u) (users_id_seq d)) (users d)
            || select_exists_username d name
            || select_exists_email d email)%bool;
    intros H; injection H as <- <-; cbn; by rewrite ?app_nil_r.
Qed.

(** What an insert into [auth_tokens] does to the tables. *)
Lemma insert_token_cases (d : Database) (now uid : Z) (token ip : string)
    (d' : Database) (ok : bool) :
  insert_token d now uid token ip = (d', ok) ->
  users d' = users d /\
  auth_tokens d' =
    auth_tokens d ++
    (if ok
     then [{| t_id := auth_tokens_id_seq d; t_user_id := Some uid;
              t_token := token; t_ip_address := Some ip;
              t_created_at := now; t_expires_at := now + seven_days;
              t_last_used_at := None; t_is_revoked := false |}]
     else []).
Proof.
  unfold insert_token.
  destruct (existsb (fun t => Z.eqb (t_id t) (auth_tokens_id_seq d))
              (auth_tokens d)
            || negb (existsb (fun u => Z.eqb (u_id u) uid) (users d))
            || existsb (fun t => String.eqb (t_token t) token)
                 (auth_tokens d))%bool;
    intros H; injection H as <- <-; cbn; by rewrite ?app_nil_r.
Qed.

Lemma app_self_inv {A} (l l' : list A) : l = l ++ l' -> l' = [].
Proof. intros H. apply (app_inv_head l). by rewrite app_nil_r. Qed.

End StoreFacts.

(** ** Token validation *)

Section TokenFacts.
Import Json Store Session.
Local Open Scope list_scope.

(** [validateToken] when the lookup is answered and finds a row. *)
Lemma validateToken_hit (st : St) (token clientIP : string) (tokenID : Z)
    (name : string) (storedIP : option string) :
  hd false (faults (world st)) = false ->
  select_token (db (world st)) (now (world st)) token
  = Some (tokenID, name, storedIP) ->
  validateToken token clientIP st =
  ((name, true, None),
   {| client := client st;
      world :=
        {| db := if hd false (tl (faults (world st))) then db (world st)
                 else update_token_usage (db (world st)) (now (world st))
                        clientIP tokenID;
           now := now (world st);
           faults := tl (tl (faults (world st)));
           uuid := uuid (world st);
           drawn := drawn (world st);
           sent := sent (world st);
           log := log (world st)
                  ++ match storedIP with
                     | Some stored =>
                         if (negb (String.eqb stored "")
                             && negb (String.eqb stored clientIP))%bool
                         then [Printf "Warning: Token used from new IP. Original: %s, Current: %s"
                                 [stored; clientIP]]
                         else []
                     | None => []
                     end
                  ++ (if hd false (tl (faults (world st)))
                      then [Printf "Error updating token usage: %v"
                              [show ErrStore]]
                      else []);
           calls := calls (world st)
                    ++ [(SelectToken token, None);
                        (UpdateTokenUsage clientIP tokenID,
                         if hd false (tl (faults (world st)))
                         then Some ErrStore else None)] |} |}).
Proof.
  intros Hf Hsel. destruct st as [cl w]. destruct w as [d t fs uu dr se lg ca].
  cbn in Hf, Hsel.
  unfold validateToken, QueryToken, ExecUpdateTokenUsage, logf, fault, record,
    bind, get, ret, with_world.
  unfold select_token in *. cbn in Hsel.
  destruct fs as [|f1 [|f2 rest]]; cbn in Hf; subst; cbn; rewrite Hsel.
  all: destruct storedIP as [stored|]; cbn.
  all: try destruct (negb (String.eqb stored "")
                     && negb (String.eqb stored clientIP))%bool; cbn.
  all: try destruct f2; cbn.
  all: unfold set_db, push_call, push_log, set_faults; cbn.
  all: rewrite <- ?app_assoc, ?app_nil_r; reflexivity.
Qed.

(** [validateToken] when the lookup is answered and finds nothing. *)
Lemma validateToken_miss (st : St) (token clientIP : string) :
  hd false (faults (world st)) = false ->
  select_token (db (world st)) (now (world st)) token = None ->
  validateToken token clientIP st =
  (("", false, Some ErrNoRows),
   {| client := client st;
      world := push_call (SelectToken token, Some ErrNoRows)
                 (set_faults (tl (faults (world st))) (world st)) |}).
Proof.
  intros Hf Hsel. destruct st as [cl w]. destruct w as [d t fs uu dr se lg ca].
  cbn in Hf, Hsel.
  unfold validateToken, QueryToken, fault, record, bind, get, ret, with_world.
  unfold select_token in *. cbn in Hsel.
  destruct fs as [|f1 rest]; cbn in Hf; subst; cbn; rewrite Hsel; reflexivity.
Qed.

(** X21.  [validateToken], given a stored, unexpired token and a caller's
    IP other than the one on record, accepts it: it reports success with
    the owning username, logs the new-IP warning, and sends the UPDATE with
    the caller's IP whatever the comparison gave; once the store has run
    that UPDATE the row of the token carries the caller's IP and the
    current time as last use. *)
Theorem token_reuse_from_new_ip (st : St) (t : AuthToken) (u : User)
    (stored clientIP : string) :
  unique_tokens (db (world st)) ->
  t ∈ auth_tokens (db (world st)) ->
  now (world st) < t_expires_at t ->
  owner (db (world st)) t = Some u ->
  t_ip_address t = Some stored -> stored <> "" -> stored <> clientIP ->
  hd false (faults (world st)) = false ->
  let out := validateToken (t_token t) clientIP st in
  fst out = (u_username u, true, None) /\
  client (snd out) = client st /\
  (exists err,
     calls (world (snd out))
     = calls (world st)
       ++ [(SelectToken (t_token t), None);
           (UpdateTokenUsage clientIP (t_id t), err)]) /\
  (exists rest,
     log (world (snd out))
     = log (world st)
       ++ Printf "Warning: Token used from new IP. Original: %s, Current: %s"
            [stored; clientIP] :: rest) /\
  (hd false (tl (faults (world st))) = false ->
     db (world (snd out))
     = update_token_usage (db (world st)) (now (world st)) clientIP (t_id t) /\
     (exists t', t' ∈ auth_tokens (db (world (snd out))) /\
                 t_token t' = t_token t) /\
     (forall t', t' ∈ auth_tokens (db (world (snd out))) ->
        t_token t' = t_token t ->
        t_ip_address t' = Some clientIP /\
        t_last_used_at t' = Some (now (world st)))).
Proof.
  intros Huniq Ht Hlt Hown Hip Hne1 Hne2 Hf out. subst out.
  destruct (select_token_iff _ (now (world st)) t u Huniq Ht Hown)
    as [Hsel _].
  rewrite (validateToken_hit st _ clientIP _ _ _ Hf (Hsel Hlt)). cbn.
  rewrite Hip.
  apply String.eqb_neq in Hne1 as ->. apply String.eqb_neq in Hne2 as ->. cbn.
  split; [done|]. split; [done|]. split; [by eexists|]. split.
  { eexists. reflexivity. }
  intros ->. split; [done|]. split.
  - exists (if Z.eqb (t_id t) (t_id t)
            then {| t_id := t_id t; t_user_id := t_user_id t;
                    t_token := t_token t; t_ip_address := Some clientIP;
                    t_created_at := t_created_at t;
                    t_expires_at := t_expires_at t;
                    t_last_used_at := Some (now (world st));
                    t_is_revoked := t_is_revoked t |}
            else t).
    split.
    + apply list_elem_of_In, in_map_iff. exists t.
      split; [done|by apply list_elem_of_In].
    + by rewrite Z.eqb_refl.
  - intros t' Hin Heq.
    destruct (update_token_usage_row _ _ _ _ t' Hin)
      as (t0 & Ht0 & Htok & _ & Hupd).
    apply Hupd. f_equal.
    apply (unique_tokens_same_row _ t t0 Huniq Ht Ht0). congruence.
Qed.

(** alice's token, issued to 10.0.0.1, is presented from 10.0.0.2. *)
Lemma token_reuse_from_new_ip_witness :
  let out := validateToken (t_token Scenario.alice_token) "10.0.0.2"
               (Scenario.connect "10.0.0.2:6000" Scenario.alice_db 2000) in
  fst out = ("alice", true, None) /\
  t_ip_address <$> auth_tokens (db (world (snd out))) = [Some "10.0.0.2"].
Proof.
  destruct (token_reuse_from_new_ip
              (Scenario.connect "10.0.0.2:6000" Scenario.alice_db 2000)
              Scenario.alice_token Scenario.alice_row "10.0.0.1" "10.0.0.2")
    as (Hres & _ & _ & _ & Hupd).
  - unfold unique_tokens. vm_compute. apply NoDup_singleton.
  - apply list_elem_of_In. vm_compute. left. reflexivity.
  - vm_compute. reflexivity.
  - vm_compute. reflexivity.
  - reflexivity.
  - discriminate.
  - discriminate.
  - reflexivity.
  - split; [exact Hres|]. destruct Hupd as (Hdb & _); [reflexivity|].
    cbv zeta. rewrite Hdb. vm_compute. reflexivity.
Defined.

(** C7.  A stored, non-revoked token with an owner validates exactly when
    the clock is strictly before its expiry; at or past the expiry the
    lookup finds no row and validation fails: the answer is not valid, and
    it carries the pool's no-rows error, which the comparison with the
    other package's [pgx.ErrNoRows] does not recognise.  A token row is
    created with expiry = creation + 7 days, validates at its creation
    time, and fails once the clock has reached the expiry. *)
Theorem token_valid_iff_before_expiry (st : St) (t : AuthToken) (u : User)
    (clientIP : string) :
  unique_tokens (db (world st)) ->
  t ∈ auth_tokens (db (world st)) ->
  t_is_revoked t = false ->
  owner (db (world st)) t = Some u ->
  hd false (faults (world st)) = false ->
  (fst (validateToken (t_token t) clientIP st) = (u_username u, true, None)
   <-> now (world st) < t_expires_at t) /\
  (snd (fst (fst (validateToken (t_token t) clientIP st))) = true
   <-> now (world st) < t_expires_at t) /\
  (~ now (world st) < t_expires_at t ->
     select_token (db (world st)) (now (world st)) (t_token t) = None /\
     fst (validateToken (t_token t) clientIP st) = ("", false, Some ErrNoRows)) /\
  (forall d created uid token ip d',
     unique_tokens d ->
     insert_token d created uid token ip = (d', true) ->
     exists row holder,
       row ∈ auth_tokens d' /\ t_token row = token /\
       t_is_revoked row = false /\ t_created_at row = created /\
       t_expires_at row = t_created_at row + 7 * 24 * 3600 /\
       owner d' row = Some holder /\
       forall st' ip',
         db (world st') = d' -> hd false (faults (world st')) = false ->
         (now (world st') = created ->
            fst (validateToken token ip' st') = (u_username holder, true, None)) /\
         (t_expires_at row <= now (world st') ->
            fst (validateToken token ip' st') = ("", false, Some ErrNoRows))).
Proof.
  intros Huniq Ht _ Hown Hf.
  destruct (select_token_iff _ (now (world st)) t u Huniq Ht Hown)
    as [Hhit Hmiss].
  assert (Hcases :
    (now (world st) < t_expires_at t ->
       fst (validateToken (t_token t) clientIP st) = (u_username u, true, None))
    /\ (~ now (world st) < t_expires_at t ->
       fst (validateToken (t_token t) clientIP st) = ("", false, Some ErrNoRows))).
  { split; intros Hnow.
    - by rewrite (validateToken_hit st _ clientIP _ _ _ Hf (Hhit Hnow)).
    - by rewrite (validateToken_miss st _ clientIP Hf (Hmiss Hnow)). }
  destruct Hcases as [Hyes Hno].
  split; [|split; [|split]].
  - split; [|exact Hyes]. intros Hres.
    destruct (Z.lt_ge_cases (now (world st)) (t_expires_at t)) as [|Hge];
      [done|].
    rewrite Hno in Hres by lia. discriminate.
  - split.
    + intros Hres.
      destruct (Z.lt_ge_cases (now (world st)) (t_expires_at t)) as [|Hge];
        [done|].
      rewrite Hno in Hres by lia. discriminate.
    + intros Hnow. by rewrite Hyes.
  - intros Hnow. split; [by apply Hmiss|by apply Hno].
  - intros d created uid token ip d' Hu Hins.
    destruct (insert_token_row _ _ _ _ _ _ Hins)
      as (Husers & Hrows & [holder Hholder] & Huniq').
    eexists. exists holder. split.
    { rewrite Hrows. apply elem_of_app. right. apply list_elem_of_singleton.
      reflexivity. }
    cbn. split; [done|]. split; [done|]. split; [done|].
    split; [unfold seven_days; lia|]. split.
    { unfold owner. cbn. by rewrite Husers. }
    intros st' ip' Hdb Hf'.
    assert (Hin : {| t_id := auth_tokens_id_seq d; t_user_id := Some uid;
                     t_token := token; t_ip_address := Some ip;
                     t_created_at := created;
                     t_expires_at := created + seven_days;
                     t_last_used_at := None; t_is_revoked := false |}
                  ∈ auth_tokens (db (world st'))).
    { rewrite Hdb, Hrows. apply elem_of_app. right.
      by apply list_elem_of_singleton. }
    assert (Hown' : owner (db (world st'))
                      {| t_id := auth_tokens_id_seq d; t_user_id := Some uid;
                         t_token := token; t_ip_address := Some ip;
                         t_created_at := created;
                         t_expires_at := created + seven_days;
                         t_last_used_at := None; t_is_revoked := false |}
                    = Some holder).
    { unfold owner. cbn. by rewrite Hdb, Husers. }
    assert (Hu' : unique_tokens (db (world st'))) by (rewrite Hdb; auto).
    destruct (select_token_iff _ (now (world st')) _ _ Hu' Hin Hown')
      as [Hhit' Hmiss'].
    cbn in Hhit', Hmiss'. split.
    + intros Hnow.
      rewrite (validateToken_hit st' _ ip' _ _ _ Hf' (Hhit' ltac:(unfold seven_days; lia))).
      reflexivity.
    + intros Hnow.
      rewrite (validateToken_miss st' _ ip' Hf' (Hmiss' ltac:(lia))).
      reflexivity.
Qed.

(** alice's token validates one second before its expiry and not at the
    expiry. *)
Lemma token_valid_iff_before_expiry_witness :
  snd (fst (fst (validateToken (t_token Scenario.alice_token) "10.0.0.1"
     (Scenario.connect "10.0.0.1:5001" Scenario.alice_db
        (1000 + seven_days - 1))))) = true /\
  fst (validateToken (t_token Scenario.alice_token) "10.0.0.1"
     (Scenario.connect "10.0.0.1:5001" Scenario.alice_db
        (1000 + seven_days))) = ("", false, Some ErrNoRows).
Proof.
  split.
  - apply (token_valid_iff_before_expiry
             (Scenario.connect "10.0.0.1:5001" Scenario.alice_db
                (1000 + seven_days - 1))
             Scenario.alice_token Scenario.alice_row "10.0.0.1").
    + unfold unique_tokens. vm_compute. apply NoDup_singleton.
    + apply list_elem_of_In. vm_compute. left. reflexivity.
    + reflexivity.
    + vm_compute. reflexivity.
    + reflexivity.
    + vm_compute. reflexivity.
  - apply (token_valid_iff_before_expiry
             (Scenario.connect "10.0.0.1:5001" Scenario.alice_db
                (1000 + seven_days))
             Scenario.alice_token Scenario.alice_row "10.0.0.1").
    + unfold unique_tokens. vm_compute. apply NoDup_singleton.
    + apply list_elem_of_In. vm_compute. left. reflexivity.
    + reflexivity.
    + vm_compute. reflexivity.
    + reflexivity.
    + vm_compute. discriminate.
Defined.

End TokenFacts.

(** ** Walking through a handler *)

(** The handlers are straight-line code with early returns.  The tactics
    below unfold one into its decisions and take them one at a time. *)

Ltac unfold_handlers_in H :=
  unfold Session.QueryUserExists, Session.QueryEmailExists,
    Session.ExecInsertUser, Session.QueryUserId, Session.ExecInsertToken,
    Session.QueryToken, Session.ExecUpdateTokenUsage,
    Session.QueryCredentials, Session.getClientIP, Session.uuid_New,
    Session.sendRegistrationSuccess, Session.sendAuthError,
    Session.sendError, Session.completeAuthentication, Session.logf,
    Session.send, Session.fault, Session.record, Session.bind, Session.get,
    Session.ret, Session.with_world, Session.with_client in H.

(** The key comparisons of [map_set] are between literals. *)
Ltac eval_keys_in H :=
  repeat match type of H with
    | context [String.ltb ?a ?b] =>
        let v := eval vm_compute in (String.ltb a b) in
        change (String.ltb a b) with v in H
    | context [String.eqb ?a ?b] =>
        let v := eval vm_compute in (String.eqb a b) in
        lazymatch v with
        | true => change (String.eqb a b) with true in H
        | false => change (String.eqb a b) with false in H
        end
    end.

Ltac next_case_in H :=
  match type of H with
  | context [match ?x with _ => _ end] =>
      match x with
      | context [match _ with _ => _ end] => fail 1
      | _ => destruct x eqn:?
      end
  end.

Ltac norm_world_in H :=
  cbv beta iota delta
    [Session.set_db Session.push_call Session.push_log Session.push_sent
     Session.set_faults Session.set_drawn Session.db Session.now
     Session.faults Session.uuid Session.drawn Session.sent Session.log
     Session.calls Session.client Session.world] in H.

Ltac walk H :=
  unfold_handlers_in H; cbn in H; eval_keys_in H; cbn in H;
  repeat (next_case_in H; cbn in H; eval_keys_in H; cbn in H);
  norm_world_in H; rewrite <- ?app_assoc in H; cbn in H.

(** The checks on the decoded fields, kept abstract during a walk. *)
Ltac hide_checks H registration :=
  revert H;
  generalize (Json.str registration "username");
  generalize (Json.str registration "password");
  generalize (Json.str registration "email");
  intros ?Email ?Password ?Username;
  generalize (Nat.ltb (String.length Username) 3);
  generalize (Nat.ltb (String.length Password) 6);
  generalize (util.IsValidEmail Email);
  generalize (String.eqb Email "");
  intros ?no_email ?valid_email ?short_pass ?short_name H.

Ltac use_inserts :=
  repeat match goal with
    | H : Store.insert_user _ _ _ _ _ = _ |- _ =>
        apply insert_user_cases in H; destruct H as [? ?]
    | H : Store.insert_token _ _ _ _ _ = _ |- _ =>
        apply insert_token_cases in H; destruct H as [? ?]
    end.

Ltac split_members :=
  repeat match goal with
    | H : _ ∈ [] |- _ => by apply elem_of_nil in H
    | H : _ ∈ _ :: _ |- _ => apply elem_of_cons in H as [H|H]
    end.

(** ** Registration *)

Section RegistrationFacts.
Import Json Store Session.
Local Open Scope list_scope.





(** C6.  Whenever a register request got its user row inserted and a later
    step of the token creation (the user-id lookup or the token insert)
    returned an error, the reply is
    [register_success{success:true, message, autoLogin:false}] with no
    username and no token, the session is left as it was (it does not
    become authenticated), and no token row was stored. *)
Theorem registration_without_autologin (lib : Lib) (msg : gostruct) (st : St)
    (l : list (stmt * option error)) (u h e : string) (s : stmt)
    (err : error) :
  let st' := snd (handleRegistration lib msg st) in
  calls (world st') = calls (world st) ++ l ->
  (InsertUser u h e, None) ∈ l ->
  (s, Some err) ∈ l ->
  (exists name, s = SelectUserId name) \/
  (exists uid token ip, s = InsertToken uid token ip) ->
  client st' = client st /\
  authenticated (client st') = authenticated (client st) /\
  auth_tokens (db (world st')) = auth_tokens (db (world st)) /\
  (exists row, users (db (world st')) = users (db (world st)) ++ [row] /\
               u_username row = u) /\
  exists payload,
    sent (world st')
    = sent (world st)
      ++ [JObj [("payload", JObj payload); ("type", JStr "register_success")]] /\
    payload = [("autoLogin", JBool false);
               ("message", JStr "Registration successful");
               ("success", JBool true)] /\
    has_key payload "username" = false /\ has_key payload "token" = false.
Proof.
  intros st'.
  remember (handleRegistration lib msg st) as out eqn:Hout.
  subst st'.
  unfold handleRegistration in Hout.
  destruct (Unmarshal (raw msg "payload") (zero registration_shape))
    as [registration perr].
  hide_checks Hout registration.
  destruct st as [cl w]. destruct w as [d t fs uu dr se lg ca].
  walk Hout.
  all: subst out; cbn.
  all: intros Hl Hins Hfail Hkind.
  all: first [apply app_inv_head in Hl | apply app_self_inv in Hl]; subst l.
  all: split_members.
  all: try discriminate.
  all: try (destruct Hkind as [[? ->]|(? & ? & ? & ->)]; discriminate).
  all: use_inserts; simplify_eq; cbn in *; rewrite ?app_nil_r in *.
  all: split; [done|].
  all: split; [done|].
  all: split; [congruence|].
  all: split.
  all: try (repeat match goal with H : users _ = _ |- _ => rewrite H end;
            eexists; split; reflexivity).
  all: eexists; split; [reflexivity|]; split; [reflexivity|];
    split; vm_compute; reflexivity.
Qed.

(** The store refuses the user-id lookup of a valid registration: the
    row is there, the reply says [autoLogin:false]. *)
Lemma registration_without_autologin_witness :
  let st0 := Scenario.connect "10.0.0.3:7000" Store.empty 1000 in
  let st := {| client := client st0;
               world := set_faults [false; false; true] (world st0) |} in
  let st' := Scenario.receive Scenario.register_alice st in
  authenticated (client st') = false /\
  u_username <$> users (db (world st')) = ["alice"] /\
  auth_tokens (db (world st')) = [] /\
  sent (world st')
  = [JObj [("payload",
            JObj [("autoLogin", JBool false);
                  ("message", JStr "Registration successful");
                  ("success", JBool true)]);
           ("type", JStr "register_success")]].
Proof.
  cbv zeta.
  destruct (registration_without_autologin Scenario.lib0
    [("type", FString "register");
     ("payload", FRaw (Some (JObj [("username", JStr "alice");
                                   ("password", JStr "secretpw");
                                   ("email", JStr "")])))]
    {| client := new_client "10.0.0.3:7000";
       world := set_faults [false; false; true]
                  (world_of Store.empty 1000 Scenario.ids) |}
    [(SelectUserExists "alice", None);
     (InsertUser "alice" "$2a$12$secretpw" "", None);
     (SelectUserId "alice", Some ErrStore)]
    "alice" "$2a$12$secretpw" "" (SelectUserId "alice") ErrStore)
    as (Hclient & Hauth & Htokens & _ & _).
  - vm_compute. reflexivity.
  - apply list_elem_of_In. vm_compute. tauto.
  - apply list_elem_of_In. vm_compute. tauto.
  - left. eexists. reflexivity.
  - split; [|split; [|split]]; vm_compute; reflexivity.
Defined.


(** C10.  A register request without an email (the field is absent or
    empty, so the decoded [Email] is the empty string) never sends the
    email lookup; the only insert it can send carries the empty string as
    the email; and every user row it adds stores [Some ""] in the email
    column, a value, not NULL. *)
Theorem registration_without_email (lib : Lib) (msg : gostruct) (st : St)
    (registration : gostruct) :
  Unmarshal (raw msg "payload") (zero registration_shape)
  = (registration, None) ->
  str registration "email" = "" ->
  let st' := snd (handleRegistration lib msg st) in
  exists l,
    calls (world st') = calls (world st) ++ l /\
    (forall e r, (SelectEmailExists e, r) ∉ l) /\
    (forall u h e r, (InsertUser u h e, r) ∈ l ->
       u = str registration "username" /\ e = "") /\
    (forall row, row ∈ users (db (world st')) ->
       row ∈ users (db (world st)) \/
       (u_username row = str registration "username" /\
        u_email row = Some "")).
Proof.
  intros Hdec Hemail st'.
  remember (handleRegistration lib msg st) as out eqn:Hout.
  subst st'.
  unfold handleRegistration in Hout. rewrite Hdec, Hemail in Hout.
  cbn [String.eqb negb andb] in Hout.
  revert Hout.
  generalize (str registration "username").
  generalize (str registration "password").
  intros Password Username.
  generalize (Nat.ltb (String.length Username) 3).
  generalize (Nat.ltb (String.length Password) 6).
  intros short_pass short_name Hout.
  destruct st as [cl w]. destruct w as [d t fs uu dr se lg ca].
  walk Hout.
  all: subst out; cbn.
  all: eexists; split; [first [reflexivity | symmetry; apply app_nil_r]|].
  all: split; [intros e r Hin; split_members; discriminate|].
  all: split; [intros u h e r Hin; split_members; by simplify_eq|].
  all: use_inserts; cbn in *; rewrite ?app_nil_r in *.
  all: intros row Hrow.
  all: repeat match goal with
         | H : users _ = _ |- _ => rewrite H in Hrow; clear H
         end.
  all: try (left; exact Hrow).
  all: apply elem_of_app in Hrow as [Hrow|Hrow]; [by left|right].
  all: apply list_elem_of_singleton in Hrow; by subst row.
Qed.

(** carol registers without an email field: her row stores the empty
    string. *)
Lemma registration_without_email_witness :
  let st' := Scenario.receive
      (Scenario.envelope "register"
         (JObj [("username", JStr "carol"); ("password", JStr "secretpw")]))
      (Scenario.connect "10.0.0.4:7000" Store.empty 1000) in
  u_email <$> users (db (world st')) = [Some ""] /\
  fst <$> calls (world st')
  = [SelectUserExists "carol"; InsertUser "carol" "$2a$12$secretpw" "";
     SelectUserId "carol";
     InsertToken 1 (Scenario.ids 0) "10.0.0.4"].
Proof.
  cbv zeta.
  destruct (registration_without_email Scenario.lib0
    [("type", FString "register");
     ("payload", FRaw (Some (JObj [("username", JStr "carol");
                                   ("password", JStr "secretpw")])))]
    (Scenario.connect "10.0.0.4:7000" Store.empty 1000)
    [("username", FString "carol"); ("password", FString "secretpw");
     ("email", FString "")]) as (l & Hl & _).
  - vm_compute. reflexivity.
  - reflexivity.
  - split; vm_compute; reflexivity.
Defined.

(** The column is UNIQUE: once a row stores the empty email, the insert of
    a second registration without an email is refused by the store. *)
Lemma second_empty_email_is_refused (d : Database) (now : Z)
    (name hash : string) :
  select_exists_email d "" = true ->
  snd (insert_user d now name hash "") = false.
Proof.
  intros H. unfold insert_user. rewrite H.
  by rewrite orb_true_r.
Qed.

End RegistrationFacts.

(** ** The authentication state of a session *)

Section SessionFacts.
Import Json Store Session.
Local Open Scope list_scope.

Local Arguments String.eqb : simpl never.
Local Arguments String.length : simpl never.
Local Arguments Nat.ltb : simpl never.
Local Arguments util.IsValidEmail : simpl never.
Local Arguments str : simpl never.
Local Arguments raw : simpl never.
Local Arguments Unmarshal : simpl never.

(** No packet takes the flag back. *)
Lemma handlePacket_keeps_authenticated (lib : Lib) (message_string : string)
    (doc : option json) (st : St) :
  authenticated (client st) = true ->
  authenticated (client (snd (handlePacket lib message_string doc st))) = true.
Proof.
  intros Hauth.
  remember (handlePacket lib message_string doc st) as out eqn:Hout.
  unfold handlePacket, handleAuthentication, handleRegistration,
    validateCredentials, validateToken in Hout.
  destruct st as [cl w]. destruct w as [d t fs uu dr se lg ca].
  cbn in Hauth.
  walk Hout.
  all: subst out; cbn; done.
Qed.

(** One turn of the read loop. *)
Lemma readPump_cons (lib : Lib) (message_string : string) (doc : option json)
    (rest : list read) (st : St) :
  readPump lib (ReadMessage message_string doc :: rest) st
  = readPump lib rest
      (snd (handlePacket lib message_string doc
              {| client := client st;
                 world := push_log
                   (Info "Received message"
                      [("client_id", id (client st));
                       ("message", message_string)]) (world st) |})).
Proof.
  cbn [readPump]. unfold bind, get, with_world.
  by destruct (handlePacket lib message_string doc _).
Qed.

Lemma readPump_app (lib : Lib) (before later : list read) :
  forall st,
    readPump lib (before ++ later) st
    = if fst (readPump lib before st) then readPump lib before st
      else readPump lib later (snd (readPump lib before st)).
Proof.
  induction before as [|r before IH]; intros st.
  - reflexivity.
  - destruct r as [|message_string doc].
    + reflexivity.
    + rewrite <- app_comm_cons, !readPump_cons. apply IH.
Qed.

Lemma readPump_keeps_authenticated (lib : Lib) (reads : list read) :
  forall st,
    authenticated (client st) = true ->
    authenticated (client (snd (readPump lib reads st))) = true.
Proof.
  induction reads as [|r reads IH]; intros st Hauth.
  - done.
  - destruct r as [|message_string doc]; [done|].
    rewrite readPump_cons. apply IH.
    by apply handlePacket_keeps_authenticated.
Qed.

(** C9.  A session starts unauthenticated; no packet of any type turns the
    flag from true to false; and over a connection's frames, once the flag
    is true after some prefix it is true after every longer prefix, so it
    changes at most once.  Nothing in the dispatcher is a logout. *)
Theorem authenticated_flag_monotonic (lib : Lib) :
  (forall addr, authenticated (new_client addr) = false) /\
  (forall message_string doc st,
     authenticated (client st) = true ->
     authenticated (client (snd (handlePacket lib message_string doc st)))
     = true) /\
  (forall before later st,
     authenticated (client (snd (readPump lib before st))) = true ->
     authenticated (client (snd (readPump lib (before ++ later) st))) = true).
Proof.
  split; [done|]. split.
  - intros. by apply handlePacket_keeps_authenticated.
  - intros before later st Hauth. rewrite readPump_app.
    destruct (fst (readPump lib before st)); [done|].
    by apply readPump_keeps_authenticated.
Qed.

(** alice, authenticated by her registration, then sends a login with a
    wrong password and a frame that is not JSON: she stays authenticated. *)
Lemma authenticated_flag_monotonic_witness :
  authenticated (client Scenario.alice_registered) = true /\
  authenticated (client (snd (readPump Scenario.lib0
    [ReadMessage "login" (Some (Scenario.envelope "login"
        (JObj [("username", JStr "alice"); ("password", JStr "wrong")])));
     ReadMessage "hello" None]
    Scenario.alice_registered))) = true.
Proof.
  split; [vm_compute; reflexivity|].
  destruct (authenticated_flag_monotonic Scenario.lib0) as (_ & _ & Hmono).
  apply (Hmono [] _ Scenario.alice_registered).
  vm_compute. reflexivity.
Defined.

(** The dispatcher's [token_auth] case never reads the payload: any two
    payloads give the same run. *)
Lemma handlePacket_token_auth_any_payload (lib : Lib) (text : string)
    (p p' : json) (st : St) :
  handlePacket lib text (Some (Scenario.envelope "token_auth" p)) st
  = handlePacket lib text (Some (Scenario.envelope "token_auth" p')) st.
Proof. reflexivity. Qed.

(** C1.  alice holds the unexpired token her registration issued and
    presents it in a [token_auth] envelope on a new connection.  The
    dispatcher looks up the empty string instead of the token, answers
    [error{token_error}] and leaves the connection unauthenticated; the
    [token_auth] case of [handleAuthentication], given the same message,
    decodes the token and answers [auth_success{alice, token}]. *)
Theorem token_auth_ignores_presented_token :
  let st := Scenario.connect "10.0.0.1:5001" Scenario.alice_db 2000 in
  let T := t_token Scenario.alice_token in
  let frame := Scenario.envelope "token_auth" (JObj [("token", JStr T)]) in
  select_token Scenario.alice_db 2000 T = Some (1, "alice", Some "10.0.0.1") /\
  authenticated (client (Scenario.receive frame st)) = false /\
  sent (world (Scenario.receive frame st))
  = [JObj [("payload",
            JObj [("message", JStr "Invalid or expired token");
                  ("subtype", JStr "token_error")]);
           ("type", JStr "error")]] /\
  calls (world (Scenario.receive frame st))
  = [(SelectToken "", Some ErrNoRows)] /\
  let message :=
    [("type", FString "token_auth");
     ("payload", FRaw (Some (JObj [("token", JStr T)])))] in
  let st2 := snd (handleAuthentication Scenario.lib0 message st) in
  authenticated (client st2) = true /\
  sent (world st2)
  = [JObj [("payload",
            JObj [("token", JStr T); ("username", JStr "alice")]);
           ("type", JStr "auth_success")]].
Proof. vm_compute. repeat split; reflexivity. Qed.

(** C3.  alice's unexpired token, recorded for 10.0.0.1, is presented in a
    [token_auth] envelope on a connection from 10.0.0.2.  The dispatcher
    never hands it to [validateToken]: the empty string is looked up, the
    request is refused with [error{token_error}], no warning is logged and
    the stored IP and last-use time stay as they were.  [validateToken]
    given the token, and the [token_auth] case of [handleAuthentication]
    given the same message, accept it, log the new-IP warning and store
    10.0.0.2 and the time of use. *)
Theorem token_auth_from_new_ip_is_refused :
  let st := Scenario.connect "10.0.0.2:6000" Scenario.alice_db 2000 in
  let T := t_token Scenario.alice_token in
  let frame := Scenario.envelope "token_auth" (JObj [("token", JStr T)]) in
  let warning :=
    Printf "Warning: Token used from new IP. Original: %s, Current: %s"
      ["10.0.0.1"; "10.0.0.2"] in
  select_token Scenario.alice_db 2000 T = Some (1, "alice", Some "10.0.0.1") /\
  fst (getClientIP Scenario.lib0 st) = "10.0.0.2" /\
  (let st' := Scenario.receive frame st in
   authenticated (client st') = false /\
   sent (world st')
   = [JObj [("payload",
             JObj [("message", JStr "Invalid or expired token");
                   ("subtype", JStr "token_error")]);
            ("type", JStr "error")]] /\
   calls (world st') = [(SelectToken "", Some ErrNoRows)] /\
   log (world st') = [] /\
   auth_tokens (db (world st')) = [Scenario.alice_token]) /\
  (let out := validateToken T "10.0.0.2" st in
   fst out = ("alice", true, None) /\
   log (world (snd out)) = [warning] /\
   (fun t => (t_ip_address t, t_last_used_at t))
     <$> auth_tokens (db (world (snd out)))
   = [(Some "10.0.0.2", Some 2000)]) /\
  (let message :=
     [("type", FString "token_auth");
      ("payload", FRaw (Some (JObj [("token", JStr T)])))] in
   let st2 := snd (handleAuthentication Scenario.lib0 message st) in
   authenticated (client st2) = true /\
   sent (world st2)
   = [JObj [("payload",
             JObj [("token", JStr T); ("username", JStr "alice")]);
            ("type", JStr "auth_success")]] /\
   hd_error (log (world st2)) = Some warning /\
   (fun t => (t_ip_address t, t_last_used_at t))
     <$> auth_tokens (db (world st2))
   = [(Some "10.0.0.2", Some 2000)]).
Proof. vm_compute. repeat split; reflexivity. Qed.

(** A frame that is not JSON, or is JSON but not an object, leaves the
    envelope at its zero value: it is logged and nothing else happens. *)
Lemma undecoded_frame_is_only_logged (lib : Lib) (message_string : string)
    (doc : option json) (st : St) (e : error) :
  Unmarshal doc (zero Message_shape) = (zero Message_shape, Some e) ->
  handlePacket lib message_string doc st
  = (tt, {| client := client st;
            world := push_log
              (Info "Received String as Message"
                 [("client_id", id (client st));
                  ("message", message_string)]) (world st) |}).
Proof.
  intros Hdec. unfold handlePacket. rewrite Hdec. reflexivity.
Qed.

Lemma not_json_is_only_logged (lib : Lib) (message_string : string)
    (st : St) :
  handlePacket lib message_string None st
  = (tt, {| client := client st;
            world := push_log
              (Info "Received String as Message"
                 [("client_id", id (client st));
                  ("message", message_string)]) (world st) |}).
Proof. by apply (undecoded_frame_is_only_logged _ _ _ _ SyntaxError). Qed.

(** A well-formed envelope of any other type: nothing is sent, nothing
    changes. *)
Lemma other_type_is_ignored (lib : Lib) (message_string : string)
    (doc : option json) (st : St) (message : gostruct) :
  Unmarshal doc (zero Message_shape) = (message, None) ->
  str message "type" <> "login" ->
  str message "type" <> "register" ->
  str message "type" <> "token_auth" ->
  handlePacket lib message_string doc st = (tt, st).
Proof.
  intros Hdec H1 H2 H3. unfold handlePacket. rewrite Hdec.
  apply String.eqb_neq in H1, H2, H3. rewrite H1, H2, H3.
  by destruct st.
Qed.

(** The read loop goes on after a frame that is not JSON. *)
Lemma readPump_skips_not_json (lib : Lib) (message_string : string)
    (rest : list read) (st : St) :
  readPump lib (ReadMessage message_string None :: rest) st
  = readPump lib rest
      {| client := client st;
         world := push_log
           (Info "Received String as Message"
              [("client_id", id (client st)); ("message", message_string)])
           (push_log
              (Info "Received message"
                 [("client_id", id (client st));
                  ("message", message_string)]) (world st)) |}.
Proof. rewrite readPump_cons, not_json_is_only_logged. reflexivity. Qed.

(** C8.  The frame [{"type":"login","type":5}] does not parse as an
    envelope: the decoder reports a type error for the second member after
    it has stored the first.  The dispatcher logs the failure and goes on
    to the switch with the half-filled envelope, so the login case runs
    and the client is sent [error{"", "Invalid login format"}]. *)
Theorem failed_parse_still_dispatched :
  let doc := JObj [("type", JStr "login"); ("type", JNum 5)] in
  let st := Scenario.connect "10.0.0.5:5001" Store.empty 1000 in
  snd (Unmarshal (Some doc) (zero Message_shape)) = Some UnmarshalTypeError /\
  str (fst (Unmarshal (Some doc) (zero Message_shape))) "type" = "login" /\
  log (world (Scenario.receive doc st))
  = [Info "Received String as Message"
       [("client_id", "10.0.0.5:5001"); ("message", Scenario.render doc)];
     Printf "Error parsing login credentials: %v" [show SyntaxError]] /\
  sent (world (Scenario.receive doc st))
  = [JObj [("payload",
            JObj [("message", JStr "Invalid login format");
                  ("subtype", JStr "")]);
           ("type", JStr "error")]].
Proof. vm_compute. repeat split; reflexivity. Qed.

End SessionFacts.

(** ** The write pump and new connections *)

Section PumpFacts.
Import Chan Hub Pump.
Local Open Scope list_scope.

Lemma writePump_from_ok (queue : list string) (is_closed : bool) :
  forall k,
    Forall (fun f => f = false) (failing k) ->
    writePump_from queue is_closed k
    = (if is_closed then Returned else Parked,
       {| buf := []; closed := is_closed |},
       {| written := written k ++ (TextMessage <$> queue)
                     ++ (if is_closed then [CloseMessage] else []);
          failing := drop (length queue + (if is_closed then 1 else 0))
                       (failing k);
          conn_closed := if is_closed then true else conn_closed k;
          write_errors := write_errors k |}).
Proof.
  induction queue as [|message rest IH]; intros k Hok.
  - destruct k as [w fs cc we]. cbn in Hok. cbn.
    destruct is_closed; cbn.
    + unfold WriteMessage. cbn.
      destruct fs as [|[] fs']; cbn; [done| |done].
      by apply Forall_cons in Hok as [? _].
    + by rewrite app_nil_r.
  - destruct k as [w fs cc we]. cbn in Hok. cbn [writePump_from].
    unfold WriteMessage. cbn [failing written conn_closed write_errors].
    destruct fs as [|[] fs'].
    + rewrite IH by (cbn; constructor). cbn.
      rewrite <- app_assoc. cbn. by rewrite !drop_nil.
    + by apply Forall_cons in Hok as [? _].
    + apply Forall_cons in Hok as [_ Hok].
      rewrite IH by (cbn; exact Hok). cbn.
      by rewrite <- app_assoc.
Qed.

(** X1.  A write pump whose writes all succeed sends everything queued,
    oldest first, as text frames.  On a closed queue it then sends the
    close frame and returns (the connection is closed); on an open queue
    it parks on the empty queue and the connection stays as it was. *)
Theorem writePump_flushes_in_order (c : chan) (k : Conn) :
  Forall (fun f => f = false) (failing k) ->
  let '(how, c', k') := writePump c k in
  buf c' = [] /\
  written k' = written k ++ (TextMessage <$> buf c)
               ++ (if closed c then [CloseMessage] else []) /\
  (closed c = true -> how = Returned /\ conn_closed k' = true) /\
  (closed c = false -> how = Parked /\ conn_closed k' = conn_closed k) /\
  write_errors k' = write_errors k.
Proof.
  intros Hok. unfold writePump. rewrite writePump_from_ok by done. cbn.
  split; [done|]. split; [done|].
  split; [by intros ->|]. split; [by intros ->|done].
Qed.


Lemma writePump_from_failure (i : nat) :
  forall (queue : list string) (is_closed : bool) (k : Conn)
         (later : list bool),
    failing k = repeat false i ++ true :: later ->
    (i < length queue)%nat ->
    writePump_from queue is_closed k
    = (Returned, {| buf := drop (S i) queue; closed := is_closed |},
       {| written := written k ++ (TextMessage <$> take i queue);
          failing := later; conn_closed := true;
          write_errors := S (write_errors k) |}).
Proof.
  induction i as [|i IH]; intros queue is_closed k later Hf Hlen.
  - destruct queue as [|message rest]; [cbn in Hlen; lia|].
    destruct k as [w fs cc we]. cbn in Hf. subst fs. cbn.
    by rewrite app_nil_r, drop_0.
  - destruct queue as [|message rest]; [cbn in Hlen; lia|].
    destruct k as [w fs cc we]. cbn in Hf. subst fs.
    cbn [writePump_from]. unfold WriteMessage.
    cbn [failing written conn_closed write_errors tl].
    rewrite (IH rest is_closed _ later); [|done|cbn in Hlen; lia].
    cbn. by rewrite <- app_assoc.
Qed.

(** X2.  When the write of the queued message number [i] fails, the pump
    has sent exactly the [i] older messages, logs one error, returns with
    the connection closed and never sends a close frame; the failed
    message is gone from the queue and the younger ones are left in it. *)
Theorem writePump_stops_at_failed_write (c : chan) (k : Conn) (i : nat)
    (later : list bool) :
  failing k = repeat false i ++ true :: later ->
  (i < length (buf c))%nat ->
  let '(how, c', k') := writePump c k in
  how = Returned /\
  written k' = written k ++ (TextMessage <$> take i (buf c)) /\
  (CloseMessage ∉ (TextMessage <$> take i (buf c))) /\
  c' = {| buf := drop (S i) (buf c); closed := closed c |} /\
  conn_closed k' = true /\
  write_errors k' = S (write_errors k).
Proof.
  intros Hf Hlen. unfold writePump.
  rewrite (writePump_from_failure i _ _ _ later Hf Hlen). cbn.
  repeat split; try done.
  intros Hin. apply list_elem_of_fmap in Hin as (? & ? & _). discriminate.
Qed.

(** The second of three queued messages cannot be written. *)
Lemma writePump_stops_at_failed_write_witness :
  let '(how, c', k') :=
    writePump {| buf := ["a"; "b"; "c"]; closed := false |}
      {| written := []; failing := [false; true]; conn_closed := false;
         write_errors := O |} in
  how = Returned /\ written k' = [TextMessage "a"] /\ buf c' = ["c"].
Proof.
  pose proof (writePump_stops_at_failed_write
                {| buf := ["a"; "b"; "c"]; closed := false |}
                {| written := []; failing := [false; true];
                   conn_closed := false; write_errors := O |}
                1%nat [] eq_refl ltac:(cbn; lia)) as H.
  cbn in H. cbn. destruct H as (H1 & H2 & _ & H3 & _).
  split; [exact H1|]. split; [exact H2|]. reflexivity.
Defined.

(** A closed queue holding two messages is flushed, then closed. *)
Lemma writePump_flushes_in_order_witness :
  let '(how, c', k') :=
    writePump {| buf := ["a"; "b"]; closed := true |} dial in
  how = Returned /\
  written k' = [TextMessage "a"; TextMessage "b"; CloseMessage].
Proof.
  pose proof (writePump_flushes_in_order
                {| buf := ["a"; "b"]; closed := true |} dial
                ltac:(cbn; constructor)) as H.
  cbn in H. cbn. destruct H as (_ & H2 & H3 & _).
  split; [by apply H3|exact H2].
Defined.



Lemma full_queues_ext (m1 m2 : ClientManager) (keys : list ptr) :
  (forall c, c ∈ keys -> send m1 c = send m2 c) ->
  full_queues m1 keys = full_queues m2 keys.
Proof.
  unfold full_queues. induction keys as [|k keys IH]; intros Hext; [done|].
  rewrite !filter_cons. rewrite (Hext k) by left.
  destruct (decide (full (send m2 k) = true)); cbn;
    rewrite IH; try done; intros c Hc; apply Hext; by right.
Qed.

Lemma broadcast_range_size (keys : list ptr) :
  forall (message : string) (m m' : ClientManager),
    NoDup keys ->
    (forall c, c ∈ keys -> is_Some (clients m !! c)) ->
    consistent m ->
    broadcast_range keys message m = Done m' ->
    (size (clients m') + full_queues m keys = size (clients m))%nat.
Proof.
  induction keys as [|k keys IH]; intros message m m' Hnd Hreg Hcons Hrun.
  - cbn in Hrun. injection Hrun as <-. unfold full_queues. cbn. lia.
  - apply NoDup_cons in Hnd as [Hk Hnd].
    destruct (Hreg k) as [b Hb]; [left|].
    destruct (Hcons k b Hb) as [-> Hopen].
    cbn [broadcast_range] in Hrun. unfold try_send, close in Hrun.
    rewrite Hopen in Hrun.
    unfold full_queues. rewrite filter_cons.
    destruct (full (send m k)) eqn:Hfull.
    + rewrite decide_True by done. cbn [length].
      match type of Hrun with
      | broadcast_range _ _ ?m1 = _ => set (m1' := m1) in *
      end.
      assert (Hsize : size (clients m) = S (size (clients m1'))).
      { cbn. rewrite map_size_delete, Hb.
        assert (size (clients m) <> 0%nat); [|lia].
        intros Hz. apply map_size_empty_inv in Hz. rewrite Hz in Hb.
        by rewrite lookup_empty in Hb. }
      assert (Hext : full_queues m1' keys = full_queues m keys).
      { apply full_queues_ext. intros c Hc. cbn.
        rewrite fn_lookup_insert_ne; [done|]. intros ->. done. }
      assert (IH' : (size (clients m') + full_queues m1' keys
                     = size (clients m1'))%nat).
      { apply (IH message m1' m' Hnd); [| |exact Hrun].
        - intros c Hc. cbn. rewrite lookup_delete_ne; [apply Hreg; by right|].
          intros ->. done.
        - intros c b' Hc. cbn in Hc. destruct (decide (c = k)) as [->|Hne].
          + by rewrite lookup_delete_eq in Hc.
          + rewrite lookup_delete_ne in Hc by done. cbn.
            rewrite fn_lookup_insert_ne by done. by apply Hcons. }
      unfold full_queues in *. lia.
    + rewrite decide_False by congruence.
      match type of Hrun with
      | broadcast_range _ _ ?m1 = _ => set (m1' := m1) in *
      end.
      assert (Hext : full_queues m1' keys = full_queues m keys).
      { apply full_queues_ext. intros c Hc. cbn.
        rewrite fn_lookup_insert_ne; [done|]. intros ->. done. }
      assert (IH' : (size (clients m') + full_queues m1' keys
                     = size (clients m1'))%nat).
      { apply (IH message m1' m' Hnd); [| |exact Hrun].
        - intros c Hc. cbn. apply Hreg. by right.
        - intros c b' Hc. cbn in Hc. destruct (Hcons c b' Hc) as [-> Ho].
          split; [done|]. cbn. destruct (decide (c = k)) as [->|Hne].
          + by rewrite fn_lookup_insert.
          + by rewrite fn_lookup_insert_ne. }
      rewrite Hext in IH'. exact IH'.
Qed.

(** X4.  A broadcast pass in a reachable state lowers the connected count
    by exactly the number of registered sessions whose queue was full, and
    the sessions registered afterwards are exactly those that were
    registered with room in their queue. *)
Theorem broadcast_drops_exactly_the_full (history : list event)
    (m : ClientManager) (message : string) :
  steps manager history = Done m ->
  exists m',
    run m (Broadcast message) = Done m' /\
    (GetConnectedClientsCount m' + full_queues m (registered m)
     = GetConnectedClientsCount m)%nat /\
    (forall c, is_Some (clients m' !! c) <->
               is_Some (clients m !! c) /\ full (send m c) = false).
Proof.
  intros Hreach.
  assert (Hcons : consistent m)
    by (eapply steps_consistent; [apply manager_consistent|exact Hreach]).
  destruct (broadcast_range_spec (registered m) message m)
    as (m' & Hrun & _ & Hout & Hsent & Hfull & _).
  { apply registered_NoDup. }
  { intros c. apply registered_lookup. }
  { exact Hcons. }
  exists m'. split; [exact Hrun|]. split.
  - unfold GetConnectedClientsCount.
    apply (broadcast_range_size (registered m) message m m'); try done.
    + apply registered_NoDup.
    + intros c. apply registered_lookup.
  - intros c. destruct (decide (c ∈ registered m)) as [Hin|Hnin].
    + apply registered_lookup in Hin as Hsome.
      destruct (full (send m c)) eqn:Hf.
      * destruct (Hfull c Hin Hf) as [Hnone _]. rewrite Hnone. split.
        -- by intros [? ?].
        -- by intros [_ ?].
      * destruct (Hsent c Hin Hf) as [Hsame _]. rewrite Hsame. tauto.
    + destruct (Hout c Hnin) as [Hsame _]. rewrite Hsame.
      rewrite registered_lookup in Hnin. tauto.
Qed.

Lemma broadcast_drops_exactly_the_full_witness :
  exists m',
    run Scenario.busy_hub (Broadcast "tick") = Done m' /\
    GetConnectedClientsCount m' = 1%nat.
Proof.
  destruct (broadcast_drops_exactly_the_full Scenario.busy_history
              Scenario.busy_hub "tick") as (m' & Hrun & Hcount & _).
  { vm_compute. reflexivity. }
  exists m'. split; [exact Hrun|].
  assert (H : full_queues Scenario.busy_hub (registered Scenario.busy_hub)
              = 1%nat) by (vm_compute; reflexivity).
  assert (H2 : GetConnectedClientsCount Scenario.busy_hub = 2%nat)
    by (vm_compute; reflexivity).
  lia.
Defined.


(** X5.  Unregistering a registered session in a reachable state lowers
    the count by one, leaves every other session as it was, and closes the
    queue with its contents kept: a write pump whose writes succeed then
    sends everything still queued, in order, followed by the close frame,
    and returns. *)
Theorem unregister_then_pump_flushes (history : list event)
    (m : ClientManager) (c : ptr) (k : Conn) :
  steps manager history = Done m ->
  is_Some (clients m !! c) ->
  Forall (fun f => f = false) (failing k) ->
  exists m',
    run m (Unregister c) = Done m' /\
    S (GetConnectedClientsCount m') = GetConnectedClientsCount m /\
    (forall c', c' <> c ->
       clients m' !! c' = clients m !! c' /\ send m' c' = send m c') /\
    let '(how, _, k') := writePump (send m' c) k in
    how = Returned /\
    written k' = written k ++ (TextMessage <$> buf (send m c))
                 ++ [CloseMessage] /\
    conn_closed k' = true.
Proof.
  intros Hreach [b Hb] Hok.
  assert (Hcons : consistent m)
    by (eapply steps_consistent; [apply manager_consistent|exact Hreach]).
  destruct (Hcons c b Hb) as [_ Hopen].
  cbn [run]. rewrite Hb. unfold close. rewrite Hopen.
  eexists. split; [reflexivity|]. cbn. split.
  { unfold GetConnectedClientsCount. cbn. rewrite map_size_delete, Hb.
    assert (size (clients m) <> 0%nat); [|lia].
    intros Hz. apply map_size_empty_inv in Hz. rewrite Hz in Hb.
    by rewrite lookup_empty in Hb. }
  split.
  { intros c' Hne. rewrite lookup_delete_ne by done.
    by rewrite fn_lookup_insert_ne by done. }
  rewrite fn_lookup_insert. unfold writePump.
  rewrite writePump_from_ok by done. done.
Qed.

Lemma unregister_then_pump_flushes_witness :
  exists m',
    run (Scenario.after [Serve (Register 1%nat); Serve (Broadcast "news")])
      (Unregister 1%nat) = Done m' /\
    written (snd (writePump (send m' 1%nat) dial))
    = [TextMessage welcome; TextMessage "news"; CloseMessage].
Proof.
  destruct (unregister_then_pump_flushes
              [Serve (Register 1%nat); Serve (Broadcast "news")]
              (Scenario.after [Serve (Register 1%nat);
                               Serve (Broadcast "news")])
              1%nat dial) as (m' & Hrun & _ & _ & Hpump).
  - vm_compute. reflexivity.
  - vm_compute. eauto.
  - constructor.
  - exists m'. split; [exact Hrun|].
    destruct (writePump (send m' 1%nat) dial) as [[how q] k'].
    destruct Hpump as (_ & Hw & _). cbn. rewrite Hw.
    vm_compute. reflexivity.
Defined.

(** X6.  Broadcasts reach a session in the order they were requested: when
    a registered session has room for all of them, serving the broadcasts
    one after the other leaves it registered with the payloads appended to
    its queue in that order. *)
Theorem broadcasts_keep_order (messages : list string) :
  forall (history : list event) (m : ClientManager) (c : ptr),
    steps manager history = Done m ->
    is_Some (clients m !! c) ->
    (length (buf (send m c)) + length messages <= capacity)%nat ->
    exists m',
      steps m ((fun message => Serve (Broadcast message)) <$> messages)
      = Done m' /\
      is_Some (clients m' !! c) /\
      send m' c = {| buf := buf (send m c) ++ messages; closed := false |}.
Proof.
  intros history m c Hreach.
  assert (Hcons : consistent m)
    by (eapply steps_consistent; [apply manager_consistent|exact Hreach]).
  clear Hreach. revert m Hcons.
  induction messages as [|message rest IH]; intros m Hcons Hc Hroom.
  - exists m. split; [done|]. split; [done|]. rewrite app_nil_r.
    destruct Hc as [b Hb]. destruct (Hcons c b Hb) as [_ Hopen].
    destruct (send m c) as [q cl]. cbn in *. by subst cl.
  - cbn [fmap list_fmap steps step run].
    destruct (broadcast_range_spec (registered m) message m)
      as (m1 & Hrun & Hcons1 & _ & Hsent & _).
    { apply registered_NoDup. }
    { intros k. apply registered_lookup. }
    { exact Hcons. }
    rewrite Hrun.
    destruct (Hsent c) as [Hreg1 Hsend1].
    { by apply registered_lookup. }
    { unfold full. apply Nat.leb_gt. cbn in Hroom. lia. }
    destruct (IH m1 Hcons1) as (m' & Hsteps & Hreg' & Hsend').
    { by rewrite Hreg1. }
    { rewrite Hsend1. cbn. rewrite length_app. cbn. cbn in Hroom. lia. }
    exists m'. split; [exact Hsteps|]. split; [exact Hreg'|].
    rewrite Hsend', Hsend1. cbn. by rewrite <- app_assoc.
Qed.

Lemma broadcasts_keep_order_witness :
  exists m',
    steps (Scenario.after [Serve (Register 1%nat)])
      [Serve (Broadcast "one"); Serve (Broadcast "two")] = Done m' /\
    buf (send m' 1%nat) = [welcome; "one"; "two"].
Proof.
  destruct (broadcasts_keep_order ["one"; "two"] [Serve (Register 1%nat)]
              (Scenario.after [Serve (Register 1%nat)]) 1%nat)
    as (m' & Hsteps & _ & Hsend).
  - vm_compute. reflexivity.
  - vm_compute. eauto.
  - vm_compute. lia.
  - exists m'. split; [exact Hsteps|]. rewrite Hsend. vm_compute.
    reflexivity.
Defined.

End PumpFacts.

(** ** The schema's constraints *)

Section SchemaFacts.
Import Store Schema.
Local Open Scope list_scope.

Lemma existsb_false_not_in {A B} (f : A -> B) (eqb : B -> B -> bool)
    (l : list A) (b : B) :
  (forall x y, eqb x y = true <-> x = y) ->
  existsb (fun a => eqb (f a) b) l = false -> b ∉ f <$> l.
Proof.
  intros Heqb Hex Hin. apply list_elem_of_fmap in Hin as (a & -> & Ha).
  assert (existsb (fun a0 => eqb (f a0) (f a)) l = true); [|congruence].
  apply existsb_exists. exists a. split; [by apply list_elem_of_In|].
  by apply Heqb.
Qed.

Lemma select_exists_email_false (d : Database) (email : string) :
  select_exists_email d email = false -> email ∉ omap u_email (users d).
Proof.
  unfold select_exists_email. intros Hex Hin.
  apply list_elem_of_omap in Hin as (u & Hu & Hemail).
  assert (existsb (fun u => match u_email u with
                            | Some e => String.eqb e email
                            | None => false
                            end) (users d) = true); [|congruence].
  apply existsb_exists. exists u. split; [by apply list_elem_of_In|].
  rewrite Hemail. apply String.eqb_refl.
Qed.

Lemma insert_user_well_formed (d : Database) (now : Z)
    (name hash email : string) (d' : Database) (ok : bool) :
  well_formed d -> insert_user d now name hash email = (d', ok) ->
  well_formed d'.
Proof.
  intros (Hids & Hnames & Hemails & Htids & Htoks & Hfk). unfold insert_user.
  destruct (existsb (fun u => Z.eqb (u_id u) (users_id_seq d)) (users d))
    eqn:Hid; cbn.
  { intros H. injection H as <- <-. by repeat split. }
  destruct (select_exists_username d name) eqn:Hname; cbn.
  { intros H. injection H as <- <-. by repeat split. }
  destruct (select_exists_email d email) eqn:Hemail; cbn.
  { intros H. injection H as <- <-. by repeat split. }
  intros H. injection H as <- <-. unfold well_formed. cbn.
  rewrite !fmap_app, omap_app. cbn.
  split; [|split; [|split; [|split; [done|split; [done|]]]]].
  - apply NoDup_app. split; [done|]. split; [|apply NoDup_singleton].
    intros x Hx Hx'. apply list_elem_of_singleton in Hx'. subst x.
    revert Hx. apply (existsb_false_not_in u_id Z.eqb); [|done].
    intros x y. apply Z.eqb_eq.
  - apply NoDup_app. split; [done|]. split; [|apply NoDup_singleton].
    intros x Hx Hx'. apply list_elem_of_singleton in Hx'. subst x.
    revert Hx. apply (existsb_false_not_in u_username String.eqb); [|done].
    intros x y. apply String.eqb_eq.
  - apply NoDup_app. split; [done|]. split; [|apply NoDup_singleton].
    intros x Hx Hx'. apply list_elem_of_singleton in Hx'. subst x.
    by apply select_exists_email_false in Hemail.
  - intros t uid Ht Huid. destruct (Hfk t uid Ht Huid) as (u & Hu & Hid').
    exists u. split; [|done]. apply elem_of_app. by left.
Qed.

Lemma insert_token_well_formed (d : Database) (now uid : Z)
    (token ip : string) (d' : Database) (ok : bool) :
  well_formed d -> insert_token d now uid token ip = (d', ok) ->
  well_formed d'.
Proof.
  intros (Hids & Hnames & Hemails & Htids & Htoks & Hfk). unfold insert_token.
  destruct (existsb (fun t => Z.eqb (t_id t) (auth_tokens_id_seq d))
              (auth_tokens d)) eqn:Hid; cbn.
  { intros H. injection H as <- <-. by repeat split. }
  destruct (existsb (fun u => Z.eqb (u_id u) uid) (users d)) eqn:Hu; cbn.
  2:{ intros H. injection H as <- <-. by repeat split. }
  destruct (existsb (fun t => String.eqb (t_token t) token) (auth_tokens d))
    eqn:Htok; cbn.
  { intros H. injection H as <- <-. by repeat split. }
  intros H. injection H as <- <-. unfold well_formed. cbn.
  rewrite !fmap_app. cbn.
  split; [done|]. split; [done|]. split; [done|]. split; [|split].
  - apply NoDup_app. split; [done|]. split; [|apply NoDup_singleton].
    intros x Hx Hx'. apply list_elem_of_singleton in Hx'. subst x.
    revert Hx. apply (existsb_false_not_in t_id Z.eqb); [|done].
    intros x y. apply Z.eqb_eq.
  - apply NoDup_app. split; [done|]. split; [|apply NoDup_singleton].
    intros x Hx Hx'. apply list_elem_of_singleton in Hx'. subst x.
    revert Hx. apply (existsb_false_not_in t_token String.eqb); [|done].
    intros x y. apply String.eqb_eq.
  - intros t uid' Ht Huid. apply elem_of_app in Ht as [Ht|Ht].
    + by apply (Hfk t).
    + apply list_elem_of_singleton in Ht. subst t. cbn in Huid.
      injection Huid as <-.
      apply existsb_exists in Hu as (u & Hin & Heq).
      exists u. split; [by apply list_elem_of_In|]. by apply Z.eqb_eq.
Qed.

Lemma update_token_usage_ids (d : Database) (now : Z) (ip : string)
    (id : Z) :
  t_id <$> auth_tokens (update_token_usage d now ip id)
  = t_id <$> auth_tokens d.
Proof.
  cbn. induction (auth_tokens d) as [|x rows IH]; [done|]. cbn.
  f_equal; [|exact IH]. by destruct (Z.eqb (t_id x) id).
Qed.

Lemma update_token_usage_well_formed (d : Database) (now : Z) (ip : string)
    (id : Z) :
  well_formed d -> well_formed (update_token_usage d now ip id).
Proof.
  intros (Hids & Hnames & Hemails & Htids & Htoks & Hfk).
  unfold well_formed.
  rewrite update_token_usage_tokens, update_token_usage_ids.
  split; [done|]. split; [done|]. split; [done|]. split; [done|].
  split; [done|].
  intros t uid Ht Huid.
  cbn in Ht. apply list_elem_of_In, in_map_iff in Ht as (t1 & <- & Ht1).
  apply list_elem_of_In in Ht1. apply (Hfk t1 uid Ht1).
  revert Huid. by destruct (Z.eqb (t_id t1) id).
Qed.

Lemma find_by_id_unique (l : list User) (u : User) :
  NoDup (u_id <$> l) -> u ∈ l ->
  find (fun x => Z.eqb (u_id x) (u_id u)) l = Some u.
Proof.
  induction l as [|x l IH]; intros Hnd Hu.
  - by apply elem_of_nil in Hu.
  - rewrite fmap_cons in Hnd. apply NoDup_cons in Hnd as [Hx Hnd]. cbn.
    apply elem_of_cons in Hu as [->|Hu].
    + by rewrite Z.eqb_refl.
    + destruct (Z.eqb_spec (u_id x) (u_id u)) as [Heq|Hne].
      * exfalso. apply Hx. rewrite Heq. by apply list_elem_of_fmap_2.
      * by apply IH.
Qed.

End SchemaFacts.

(** ** What the handlers do to the store and to the session *)

Section HandlerFacts.
Import Json Store Schema Session.
Local Open Scope list_scope.

(** X8.  Validating a token never adds or removes a row, never touches
    the users, and leaves every token's id, owner, value, creation time,
    expiry and revoked flag as they were (only the IP and the last-use
    time can change); it sends nothing to the client, leaves the session
    as it was, and keeps the schema's constraints. *)
Theorem validateToken_only_touches_usage (token clientIP : string) (st : St) :
  let st' := snd (validateToken token clientIP st) in
  users (db (world st')) = users (db (world st)) /\
  (fun t => (t_id t, t_user_id t, t_token t, t_created_at t, t_expires_at t,
             t_is_revoked t)) <$> auth_tokens (db (world st'))
  = (fun t => (t_id t, t_user_id t, t_token t, t_created_at t,
               t_expires_at t, t_is_revoked t))
      <$> auth_tokens (db (world st)) /\
  sent (world st') = sent (world st) /\
  client st' = client st /\
  (well_formed (db (world st)) -> well_formed (db (world st'))).
Proof.
  intros st'.
  remember (validateToken token clientIP st) as out eqn:Hout.
  subst st'. unfold validateToken in Hout.
  destruct st as [cl w]. destruct w as [d t fs uu dr se lg ca].
  assert (Hframe : forall ip id,
    (fun t => (t_id t, t_user_id t, t_token t, t_created_at t, t_expires_at t,
               t_is_revoked t))
      <$> auth_tokens (update_token_usage d t ip id)
    = (fun t => (t_id t, t_user_id t, t_token t, t_created_at t,
                 t_expires_at t, t_is_revoked t)) <$> auth_tokens d).
  { intros ip id. cbn. induction (auth_tokens d) as [|x rows IH]; [done|].
    cbn. f_equal; [|exact IH]. by destruct (Z.eqb (t_id x) id). }
  walk Hout.
  all: subst out; cbn.
  all: split; [done|]; split; [first [done | apply Hframe]|].
  all: split; [done|]; split; [done|]; intros Hwf.
  all: first [exact Hwf | by apply update_token_usage_well_formed].
Qed.

(** X9.  Every register request is answered by exactly one message, an
    [error] or a [register_success].  After an [error] nothing was stored
    (no user row, no token row) and the session is as it was; after a
    [register_success] exactly one user row was added. *)
Theorem registration_replies_once (lib : Lib) (msg : gostruct) (st : St) :
  let st' := snd (handleRegistration lib msg st) in
  exists type payload,
    sent (world st')
    = sent (world st) ++ [JObj [("payload", JObj payload);
                                ("type", JStr type)]] /\
    (type = "error" \/ type = "register_success") /\
    (type = "error" ->
       users (db (world st')) = users (db (world st)) /\
       auth_tokens (db (world st')) = auth_tokens (db (world st)) /\
       client st' = client st) /\
    (type = "register_success" ->
       exists row, users (db (world st')) = users (db (world st)) ++ [row]).
Proof.
  intros st'.
  remember (handleRegistration lib msg st) as out eqn:Hout.
  subst st'. unfold handleRegistration in Hout.
  destruct (Unmarshal (raw msg "payload") (zero registration_shape))
    as [registration perr].
  hide_checks Hout registration.
  destruct st as [cl w]. destruct w as [d t fs uu dr se lg ca].
  walk Hout.
  all: subst out; cbn.
  all: use_inserts; cbn in *; rewrite ?app_nil_r in *.
  all: do 2 eexists; split; [reflexivity|].
  all: split; [by (left + right)|].
  all: split; [intros Hty; try discriminate; repeat split; congruence|].
  all: intros Hty; try discriminate.
  all: repeat match goal with H : users _ = _ |- _ => rewrite H end.
  all: by eexists.
Qed.


(** X10.  When a register request turns an unauthenticated session into an
    authenticated one, everything of the auto-login is in place: the user
    row is stored with the bcrypt output as its hash and the decoded email,
    a token row is stored whose value is the session's token, bound to the
    caller's IP, created now and expiring seven days later, not revoked;
    the session carries the decoded username; and the reply is
    [register_success] with [autoLogin:true], that username and that
    token. *)
Theorem registration_autologin_outcome (lib : Lib) (msg : gostruct)
    (st : St) :
  let registration :=
    fst (Unmarshal (raw msg "payload") (zero registration_shape)) in
  let st' := snd (handleRegistration lib msg st) in
  authenticated (client st) = false ->
  authenticated (client st') = true ->
  username (client st') = str registration "username" /\
  (exists urow,
     users (db (world st')) = users (db (world st)) ++ [urow] /\
     u_username urow = str registration "username" /\
     GenerateFromPassword lib (str registration "password")
     = Some (u_password_hash urow) /\
     u_email urow = Some (str registration "email")) /\
  (exists trow,
     auth_tokens (db (world st')) = auth_tokens (db (world st)) ++ [trow] /\
     t_token trow = authToken (client st') /\
     t_ip_address trow = Some (fst (getClientIP lib st)) /\
     t_created_at trow = now (world st) /\
     t_expires_at trow = now (world st) + seven_days /\
     t_is_revoked trow = false) /\
  sent (world st')
  = sent (world st)
    ++ [JObj [("payload",
               JObj [("autoLogin", JBool true);
                     ("message", JStr "Registration successful");
                     ("success", JBool true);
                     ("token", JStr (authToken (client st')));
                     ("username", JStr (username (client st')))]);
              ("type", JStr "register_success")]].
Proof.
  intros registration st'.
  remember (handleRegistration lib msg st) as out eqn:Hout.
  subst st' registration. unfold handleRegistration in Hout.
  destruct (Unmarshal (raw msg "payload") (zero registration_shape))
    as [registration perr].
  cbn [fst].
  hide_checks Hout registration.
  destruct st as [cl w]. destruct w as [d t fs uu dr se lg ca].
  unfold getClientIP, bind, get, ret. cbn [client world fst].
  walk Hout.
  all: subst out; cbn.
  all: intros Hbefore Hafter; try congruence.
  all: use_inserts; cbn in *; rewrite ?app_nil_r in *.
  all: split; [done|].
  all: split; [eexists; split;
         [repeat match goal with H : users _ = _ |- _ => rewrite H end;
          reflexivity|by repeat split]|].
  all: split; [eexists; split;
         [repeat match goal with H : auth_tokens _ = _ |- _ => rewrite H end;
          reflexivity|by repeat split]|].
  all: reflexivity.
Qed.

Lemma registration_autologin_outcome_witness :
  username (client Scenario.alice_registered) = "alice" /\
  t_expires_at <$> auth_tokens Scenario.alice_db = [1000 + seven_days].
Proof.
  destruct (registration_autologin_outcome Scenario.lib0
              [("type", FString "register");
               ("payload", FRaw (Some (JObj [("username", JStr "alice");
                                             ("password", JStr "secretpw");
                                             ("email", JStr "")])))]
              (Scenario.connect "10.0.0.1:5000" Store.empty 1000))
    as (Hname & _ & (trow & Hrows & _ & _ & _ & Hexp & _) & _).
  - reflexivity.
  - vm_compute. reflexivity.
  - split; [exact Hname|]. vm_compute. reflexivity.
Defined.

(** X11.  The token a registration issues works: on a store that met the
    schema's constraints, once a register request has authenticated its
    session, presenting the session's token to [validateToken] at any time
    before creation + 7 days (the lookup being answered) succeeds with the
    registered username. *)
Theorem registered_token_validates (lib : Lib) (msg : gostruct) (st st2 : St)
    (clientIP : string) :
  let st' := snd (handleRegistration lib msg st) in
  well_formed (db (world st)) ->
  authenticated (client st) = false ->
  authenticated (client st') = true ->
  db (world st2) = db (world st') ->
  hd false (faults (world st2)) = false ->
  now (world st2) < now (world st) + seven_days ->
  fst (validateToken (authToken (client st')) clientIP st2)
  = (username (client st'), true, None).
Proof.
  intros st'.
  remember (handleRegistration lib msg st) as out eqn:Hout.
  subst st'. unfold handleRegistration in Hout.
  destruct (Unmarshal (raw msg "payload") (zero registration_shape))
    as [registration perr].
  hide_checks Hout registration.
  destruct st as [cl w]. destruct w as [d t fs uu dr se lg ca].
  walk Hout.
  all: subst out; cbn.
  all: intros Hwf Hbefore Hafter Hdb Hf Hnow; try congruence.
  all: match goal with
       | Hu : insert_user _ _ _ _ _ = (?d0, true),
         Hi : select_user_id ?d0 _ = Some ?z,
         Ht : insert_token ?d0 _ ?z _ _ = (?d1, true) |- _ =>
           pose proof (insert_user_well_formed _ _ _ _ _ _ _ Hwf Hu) as Hwf0;
           pose proof (insert_token_well_formed _ _ _ _ _ _ _ Hwf0 Ht) as Hwf1;
           destruct (insert_token_row _ _ _ _ _ _ Ht)
             as (Husers & Hrows & _ & _);
           unfold select_user_id in Hi;
           destruct (find (fun u => String.eqb (u_username u) _) (users d0))
             as [u1|] eqn:Hfind; [|discriminate];
           injection Hi as Hz;
           apply find_some in Hfind as [Hin1 Hname1];
           apply String.eqb_eq in Hname1;
           apply list_elem_of_In in Hin1
       end.
  all: match goal with
       | |- fst (validateToken ?T _ _) = _ =>
           match type of Hrows with
           | _ = _ ++ [?trow] =>
               assert (Hsel : select_token (db (world st2)) (now (world st2)) T
                              = Some (t_id trow, u_username u1,
                                      t_ip_address trow))
           end
       end.
  all: try (rewrite (validateToken_hit st2 _ clientIP _ _ _ Hf Hsel);
            cbn; by rewrite Hname1).
  all: rewrite Hdb.
  all: match type of Hrows with
       | _ = _ ++ [?trow] =>
           apply (select_token_iff _ (now (world st2)) trow u1)
       end.
  all: try (destruct Hwf1 as (_ & _ & _ & _ & Htoks & _); exact Htoks).
  all: try (rewrite Hrows; apply elem_of_app; right;
            by apply list_elem_of_singleton).
  all: try (cbn; lia).
  all: unfold owner; cbn; rewrite Husers, <- Hz.
  all: apply find_by_id_unique; [|done].
  all: by destruct Hwf0 as (Hids & _).
Qed.

Lemma registered_token_validates_witness :
  fst (validateToken (authToken (client Scenario.alice_registered))
         "10.0.0.7"
         (Scenario.connect "10.0.0.7:80" Scenario.alice_db 5000))
  = ("alice", true, None).
Proof.
  apply (registered_token_validates Scenario.lib0
           [("type", FString "register");
            ("payload", FRaw (Some (JObj [("username", JStr "alice");
                                          ("password", JStr "secretpw");
                                          ("email", JStr "")])))]
           (Scenario.connect "10.0.0.1:5000" Store.empty 1000)).
  - unfold well_formed. cbn.
    repeat split; try apply NoDup_nil_2.
    intros t uid Ht. by apply elem_of_nil in Ht.
  - vm_compute. reflexivity.
  - vm_compute. reflexivity.
  - vm_compute. reflexivity.
  - vm_compute. reflexivity.
  - vm_compute. reflexivity.
Defined.


Lemma select_exists_username_true (d : Database) (u : User) :
  u ∈ users d -> select_exists_username d (u_username u) = true.
Proof.
  intros Hu. apply existsb_exists. exists u.
  split; [by apply list_elem_of_In|apply String.eqb_refl].
Qed.

Lemma select_exists_email_true (d : Database) (u : User) (email : string) :
  u ∈ users d -> u_email u = Some email -> select_exists_email d email = true.
Proof.
  intros Hu He. apply existsb_exists. exists u.
  split; [by apply list_elem_of_In|]. rewrite He. apply String.eqb_refl.
Qed.

(** X12.  A register request that passes validation for a username some
    stored user already has is refused with "Username already exists"
    after the one lookup: no insert is sent, the store and the session are
    unchanged. *)
Theorem registration_rejects_taken_username (lib : Lib) (msg : gostruct)
    (st : St) (registration : gostruct) (u : User) :
  Unmarshal (raw msg "payload") (zero registration_shape)
  = (registration, None) ->
  (3 <= String.length (str registration "username"))%nat ->
  (6 <= String.length (str registration "password"))%nat ->
  str registration "email" = "" \/
  util.IsValidEmail (str registration "email") = true ->
  hd false (faults (world st)) = false ->
  u ∈ users (db (world st)) ->
  u_username u = str registration "username" ->
  let st' := snd (handleRegistration lib msg st) in
  sent (world st')
  = sent (world st)
    ++ [JObj [("payload",
               JObj [("message", JStr "Username already exists");
                     ("subtype", JStr "registration_error")]);
              ("type", JStr "error")]] /\
  calls (world st')
  = calls (world st)
    ++ [(SelectUserExists (str registration "username"), None)] /\
  db (world st') = db (world st) /\
  client st' = client st.
Proof.
  intros Hdec Hu Hp He Hf Hin Hname st'.
  remember (handleRegistration lib msg st) as out eqn:Hout.
  subst st'. unfold handleRegistration in Hout. rewrite Hdec in Hout.
  apply Nat.ltb_ge in Hu, Hp. rewrite Hu, Hp in Hout.
  assert (Hok : (negb (String.eqb (str registration "email") "")
                 && negb (util.IsValidEmail (str registration "email")))%bool
                = false).
  { destruct He as [-> | ->]; [done|]. apply andb_false_r. }
  rewrite Hok in Hout.
  pose proof (select_exists_username_true _ _ Hin) as Hex.
  rewrite Hname in Hex. clear Hdec Hu Hp He Hok Hname Hin.
  revert Hout Hex.
  generalize (str registration "username").
  generalize (str registration "password").
  generalize (str registration "email").
  intros Email Password Username Hout Hex.
  destruct st as [cl w]. destruct w as [d t fs uu dr se lg ca].
  cbn in Hf, Hex.
  walk Hout.
  all: subst out; cbn in *; try congruence.
  all: by repeat split.
Qed.

Lemma registration_rejects_taken_username_witness :
  let st' := Scenario.receive Scenario.register_alice
               (Scenario.connect "10.0.0.8:9000" Scenario.alice_db 3000) in
  length (users (db (world st'))) = 1%nat /\
  fst <$> calls (world st') = [SelectUserExists "alice"].
Proof.
  cbv zeta.
  destruct (registration_rejects_taken_username Scenario.lib0
    [("type", FString "register");
     ("payload", FRaw (Some (JObj [("username", JStr "alice");
                                   ("password", JStr "secretpw");
                                   ("email", JStr "")])))]
    (Scenario.connect "10.0.0.8:9000" Scenario.alice_db 3000)
    [("username", FString "alice"); ("password", FString "secretpw");
     ("email", FString "")] Scenario.alice_row) as (_ & Hcalls & Hdb & _).
  - vm_compute. reflexivity.
  - vm_compute. lia.
  - vm_compute. lia.
  - left. reflexivity.
  - reflexivity.
  - apply list_elem_of_In. vm_compute. left. reflexivity.
  - reflexivity.
  - split; vm_compute; reflexivity.
Defined.

(** X13.  A register request that passes validation with a free username
    and a non-empty email some stored user already has is refused with
    "Email already registered" after the two lookups: no insert is sent,
    the store and the session are unchanged. *)
Theorem registration_rejects_taken_email (lib : Lib) (msg : gostruct)
    (st : St) (registration : gostruct) (u : User) :
  Unmarshal (raw msg "payload") (zero registration_shape)
  = (registration, None) ->
  (3 <= String.length (str registration "username"))%nat ->
  (6 <= String.length (str registration "password"))%nat ->
  str registration "email" <> "" ->
  util.IsValidEmail (str registration "email") = true ->
  hd false (faults (world st)) = false ->
  hd false (tl (faults (world st))) = false ->
  select_exists_username (db (world st)) (str registration "username")
  = false ->
  u ∈ users (db (world st)) ->
  u_email u = Some (str registration "email") ->
  let st' := snd (handleRegistration lib msg st) in
  sent (world st')
  = sent (world st)
    ++ [JObj [("payload",
               JObj [("message", JStr "Email already registered");
                     ("subtype", JStr "registration_error")]);
              ("type", JStr "error")]] /\
  calls (world st')
  = calls (world st)
    ++ [(SelectUserExists (str registration "username"), None);
        (SelectEmailExists (str registration "email"), None)] /\
  db (world st') = db (world st) /\
  client st' = client st.
Proof.
  intros Hdec Hu Hp Hne Hvalid Hf1 Hf2 Hfree Hin Hemail st'.
  remember (handleRegistration lib msg st) as out eqn:Hout.
  subst st'. unfold handleRegistration in Hout. rewrite Hdec in Hout.
  apply Nat.ltb_ge in Hu, Hp. rewrite Hu, Hp, Hvalid in Hout.
  apply String.eqb_neq in Hne. rewrite Hne in Hout.
  cbn [negb andb] in Hout.
  pose proof (select_exists_email_true _ _ _ Hin Hemail) as Hex.
  clear Hdec Hu Hp Hvalid Hne Hemail Hin.
  revert Hout Hex Hfree.
  generalize (str registration "username").
  generalize (str registration "password").
  generalize (str registration "email").
  intros Email Password Username Hout Hex Hfree.
  destruct st as [cl w]. destruct w as [d t fs uu dr se lg ca].
  cbn in Hf1, Hf2, Hex, Hfree.
  walk Hout.
  all: subst out; cbn in *; try congruence.
  all: by repeat split.
Qed.

Lemma registration_rejects_taken_email_witness :
  let st0 := Scenario.receive
      (Scenario.envelope "register"
         (JObj [("username", JStr "dave"); ("password", JStr "secretpw");
                ("email", JStr "dave@example.com")]))
      (Scenario.connect "10.0.0.8:9000" Store.empty 3000) in
  let st' := Scenario.receive
      (Scenario.envelope "register"
         (JObj [("username", JStr "dave2"); ("password", JStr "secretpw");
                ("email", JStr "dave@example.com")]))
      (Scenario.connect "10.0.0.9:9000" (db (world st0)) 4000) in
  u_username <$> users (db (world st')) = ["dave"].
Proof.
  cbv zeta.
  destruct (registration_rejects_taken_email Scenario.lib0
    [("type", FString "register");
     ("payload", FRaw (Some (JObj [("username", JStr "dave2");
                                   ("password", JStr "secretpw");
                                   ("email", JStr "dave@example.com")])))]
    (Scenario.connect "10.0.0.9:9000"
       (db (world (Scenario.receive
          (Scenario.envelope "register"
             (JObj [("username", JStr "dave"); ("password", JStr "secretpw");
                    ("email", JStr "dave@example.com")]))
          (Scenario.connect "10.0.0.8:9000" Store.empty 3000)))) 4000)
    [("username", FString "dave2"); ("password", FString "secretpw");
     ("email", FString "dave@example.com")]
    {| u_id := 1; u_username := "dave";
       u_password_hash := "$2a$12$secretpw";
       u_email := Some "dave@example.com"; u_created_at := 3000;
       u_last_login := None |}) as (_ & _ & Hdb & _).
  - vm_compute. reflexivity.
  - vm_compute. lia.
  - vm_compute. lia.
  - discriminate.
  - vm_compute. reflexivity.
  - reflexivity.
  - reflexivity.
  - vm_compute. reflexivity.
  - apply list_elem_of_In. vm_compute. left. reflexivity.
  - reflexivity.
  - vm_compute. reflexivity.
Defined.


Lemma select_token_rows_sound (d : Database) (now : Z) (token : string)
    (rows : list AuthToken) (id : Z) (name : string) (ip : option string) :
  select_token_rows d now token rows = Some (id, name, ip) ->
  exists t u,
    t ∈ rows /\ t_token t = token /\ now < t_expires_at t /\
    owner d t = Some u /\
    id = t_id t /\ name = u_username u /\ ip = t_ip_address t.
Proof.
  induction rows as [|x rows IH]; [done|]. cbn.
  destruct (String.eqb (t_token x) token) eqn:Htok; cbn.
  - destruct (Z.ltb_spec now (t_expires_at x)) as [Hlt|Hge].
    + destruct (owner d x) as [u|] eqn:Hown.
      * intros H. injection H as <- <- <-. exists x, u.
        apply String.eqb_eq in Htok. repeat split; try done. left.
      * intros H. destruct (IH H) as (t & u & Ht & Hrest).
        exists t, u. split; [by right|done].
    + intros H. destruct (IH H) as (t & u & Ht & Hrest).
      exists t, u. split; [by right|done].
  - intros H. destruct (IH H) as (t & u & Ht & Hrest).
    exists t, u. split; [by right|done].
Qed.

(** X14.  [validateToken] says yes only for what is stored: when it
    reports a valid token, the store holds an unexpired row with that
    token whose owner exists, and the name returned is that owner's.  When
    it does not, it has sent no UPDATE and the store is as it was. *)
Theorem validateToken_sound (token clientIP : string) (st : St) :
  let out := validateToken token clientIP st in
  (snd (fst (fst out)) = true ->
   exists t u,
     t ∈ auth_tokens (db (world st)) /\ t_token t = token /\
     now (world st) < t_expires_at t /\
     owner (db (world st)) t = Some u /\
     fst (fst (fst out)) = u_username u /\ snd (fst out) = None) /\
  (snd (fst (fst out)) = false ->
   db (world (snd out)) = db (world st) /\
   exists err,
     calls (world (snd out))
     = calls (world st) ++ [(SelectToken token, Some err)]).
Proof.
  intros out.
  remember (validateToken token clientIP st) as o eqn:Hout.
  subst out. unfold validateToken in Hout.
  destruct st as [cl w]. destruct w as [d t fs uu dr se lg ca].
  walk Hout.
  all: subst o; cbn.
  all: split; intros Hv; try discriminate.
  all: try (split; [done|]; by eexists).
  all: match goal with
       | H : select_token _ _ _ = Some _ |- _ =>
           apply select_token_rows_sound in H
             as (t0 & u0 & ? & ? & ? & ? & ? & ? & ?)
       end.
  all: exists t0, u0; by repeat split.
Qed.

(** X15.  The revoked flag is never consulted: a stored token that is
    marked revoked, is unexpired and has an owner validates like any
    other, and is still marked revoked afterwards. *)
Theorem revoked_token_still_validates (st : St) (t : AuthToken) (u : User)
    (clientIP : string) :
  unique_tokens (db (world st)) ->
  t ∈ auth_tokens (db (world st)) ->
  t_is_revoked t = true ->
  owner (db (world st)) t = Some u ->
  now (world st) < t_expires_at t ->
  hd false (faults (world st)) = false ->
  let out := validateToken (t_token t) clientIP st in
  fst out = (u_username u, true, None) /\
  forall t', t' ∈ auth_tokens (db (world (snd out))) ->
             t_token t' = t_token t -> t_is_revoked t' = true.
Proof.
  intros Huniq Ht Hrev Hown Hlt Hf out. subst out.
  destruct (select_token_iff _ (now (world st)) t u Huniq Ht Hown)
    as [Hsel _].
  rewrite (validateToken_hit st _ clientIP _ _ _ Hf (Hsel Hlt)). cbn.
  split; [done|]. intros t' Hin Htok.
  assert (Hrows : forall t', t' ∈ auth_tokens
                    (update_token_usage (db (world st)) (now (world st))
                       clientIP (t_id t)) ->
                  t_token t' = t_token t -> t_is_revoked t' = true).
  { intros t1 Hin1 Htok1. cbn in Hin1.
    apply list_elem_of_In, in_map_iff in Hin1 as (t0 & <- & Ht0).
    apply list_elem_of_In in Ht0.
    assert (t0 = t).
    { apply (unique_tokens_same_row _ t t0 Huniq Ht Ht0).
      revert Htok1. by destruct (Z.eqb (t_id t0) (t_id t)). }
    subst t0. by destruct (Z.eqb (t_id t) (t_id t)). }
  destruct (hd false (tl (faults (world st)))).
  - rewrite (unique_tokens_same_row _ t t' Huniq Ht Hin Htok). exact Hrev.
  - by apply Hrows.
Qed.

Lemma revoked_token_still_validates_witness :
  fst (validateToken "r-1" "10.0.0.1"
         (Scenario.connect "10.0.0.1:5001"
            {| users := [Scenario.alice_row];
               auth_tokens :=
                 [{| t_id := 1; t_user_id := Some 1; t_token := "r-1";
                     t_ip_address := None; t_created_at := 0;
                     t_expires_at := 9000; t_last_used_at := None;
                     t_is_revoked := true |}];
               users_id_seq := 2; auth_tokens_id_seq := 2 |} 100))
  = ("alice", true, None).
Proof.
  apply (revoked_token_still_validates
           (Scenario.connect "10.0.0.1:5001"
              {| users := [Scenario.alice_row];
                 auth_tokens :=
                   [{| t_id := 1; t_user_id := Some 1; t_token := "r-1";
                       t_ip_address := None; t_created_at := 0;
                       t_expires_at := 9000; t_last_used_at := None;
                       t_is_revoked := true |}];
                 users_id_seq := 2; auth_tokens_id_seq := 2 |} 100)
           {| t_id := 1; t_user_id := Some 1; t_token := "r-1";
              t_ip_address := None; t_created_at := 0;
              t_expires_at := 9000; t_last_used_at := None;
              t_is_revoked := true |}
           Scenario.alice_row "10.0.0.1").
  - unfold unique_tokens. cbn. apply NoDup_singleton.
  - cbn. left.
  - reflexivity.
  - reflexivity.
  - reflexivity.
  - reflexivity.
Defined.

Lemma readPump_without_error (lib : Lib) (reads : list read) :
  forall st, ReadError ∉ reads -> fst (readPump lib reads st) = false.
Proof.
  induction reads as [|r reads IH]; intros st Hno; [done|].
  destruct r as [|message_string doc].
  - exfalso. apply Hno. left.
  - rewrite readPump_cons. apply IH. intros Hin. apply Hno. by right.
Qed.

(** X16.  The read loop ends at the first read error: the frames before it
    are handled in order, nothing after it is looked at, and the loop
    reports that it was left (the deferred unregister and close follow).
    Without a read error the loop is still waiting for the next frame. *)
Theorem readPump_stops_at_read_error (lib : Lib) (before later : list read)
    (st : St) :
  ReadError ∉ before ->
  readPump lib (before ++ ReadError :: later) st
  = (true, snd (readPump lib before st)) /\
  fst (readPump lib before st) = false.
Proof.
  intros Hno. pose proof (readPump_without_error lib before st Hno) as Hw.
  split; [|exact Hw]. rewrite readPump_app, Hw. reflexivity.
Qed.

Lemma readPump_stops_at_read_error_witness :
  readPump Scenario.lib0
    ([ReadMessage "r" (Some Scenario.register_alice)]
     ++ ReadError :: [ReadMessage "r" (Some Scenario.register_alice)])
    (Scenario.connect "10.0.0.1:5000" Store.empty 1000)
  = (true,
     snd (readPump Scenario.lib0
            [ReadMessage "r" (Some Scenario.register_alice)]
            (Scenario.connect "10.0.0.1:5000" Store.empty 1000))).
Proof.
  apply (readPump_stops_at_read_error Scenario.lib0
           [ReadMessage "r" (Some Scenario.register_alice)]
           [ReadMessage "r" (Some Scenario.register_alice)]).
  intros Hin. apply list_elem_of_singleton in Hin. discriminate.
Defined.


(** X17.  The [token_auth] case of [handleAuthentication] does read the
    token from the payload: given a message of that type whose payload
    decodes to a stored, unexpired token with an owner (the lookup being
    answered), the session becomes authenticated as the owner, bound to
    that token, and [auth_success{username, token}] is sent. *)
Theorem handleAuthentication_token_auth (lib : Lib) (msg : gostruct)
    (st : St) (tokenAuth : gostruct) (t : AuthToken) (u : User) :
  str msg "type" = "token_auth" ->
  Unmarshal (raw msg "payload") (zero tokenAuth_shape) = (tokenAuth, None) ->
  str tokenAuth "token" = t_token t ->
  unique_tokens (db (world st)) ->
  t ∈ auth_tokens (db (world st)) ->
  now (world st) < t_expires_at t ->
  owner (db (world st)) t = Some u ->
  hd false (faults (world st)) = false ->
  let st' := snd (handleAuthentication lib msg st) in
  client st'
  = {| id := id (client st); remote_addr := remote_addr (client st);
       username := u_username u; authenticated := true;
       authToken := t_token t |} /\
  sent (world st')
  = sent (world st)
    ++ [JObj [("payload",
               JObj [("token", JStr (t_token t));
                     ("username", JStr (u_username u))]);
              ("type", JStr "auth_success")]].
Proof.
  intros Htype Hdec Htok Huniq Ht Hlt Hown Hf st'.
  destruct (select_token_iff _ (now (world st)) t u Huniq Ht Hown)
    as [Hsel _].
  specialize (Hsel Hlt).
  remember (handleAuthentication lib msg st) as out eqn:Hout.
  subst st'. unfold handleAuthentication, validateToken in Hout.
  rewrite Htype, Hdec, Htok in Hout.
  change (String.eqb "token_auth" "login") with false in Hout.
  change (String.eqb "token_auth" "token_auth") with true in Hout.
  cbn match in Hout.
  revert Hout Hsel. generalize (t_token t) (t_id t) (u_username u)
    (t_ip_address t).
  intros T tid name stored Hout Hsel.
  destruct st as [cl w]. destruct w as [d tm fs uu dr se lg ca].
  cbn in Hf, Hsel.
  walk Hout.
  all: subst out; cbn in *; try congruence.
  all: simplify_eq; by split.
Qed.

Lemma handleAuthentication_token_auth_witness :
  authenticated (client (snd (handleAuthentication Scenario.lib0
    [("type", FString "token_auth");
     ("payload",
      FRaw (Some (JObj [("token", JStr (t_token Scenario.alice_token))])))]
    (Scenario.connect "10.0.0.1:5001" Scenario.alice_db 2000)))) = true.
Proof.
  destruct (handleAuthentication_token_auth Scenario.lib0
    [("type", FString "token_auth");
     ("payload",
      FRaw (Some (JObj [("token", JStr (t_token Scenario.alice_token))])))]
    (Scenario.connect "10.0.0.1:5001" Scenario.alice_db 2000)
    [("token", FString (t_token Scenario.alice_token))]
    Scenario.alice_token Scenario.alice_row) as [Hclient _].
  - reflexivity.
  - vm_compute. reflexivity.
  - reflexivity.
  - unfold unique_tokens. vm_compute. apply NoDup_singleton.
  - apply list_elem_of_In. vm_compute. left. reflexivity.
  - vm_compute. reflexivity.
  - vm_compute. reflexivity.
  - reflexivity.
  - by rewrite Hclient.
Defined.

Lemma not_in_existsb_false {A B} (f : A -> B) (eqb : B -> B -> bool)
    (l : list A) (b : B) :
  (forall x y, eqb x y = true <-> x = y) ->
  b ∉ f <$> l -> existsb (fun a => eqb (f a) b) l = false.
Proof.
  intros Heqb Hnot. apply not_true_is_false. intros Hex.
  apply existsb_exists in Hex as (a & Ha & Heq). apply Hnot.
  apply Heqb in Heq. rewrite <- Heq. apply list_elem_of_fmap_2.
  by apply list_elem_of_In.
Qed.

Lemma select_user_id_after_insert (d : Database) (now : Z)
    (name hash email : string) (d' : Database) :
  insert_user d now name hash email = (d', true) ->
  exists z, select_user_id d' name = Some z /\
            existsb (fun u => Z.eqb (u_id u) z) (users d') = true /\
            auth_tokens_id_seq d' = auth_tokens_id_seq d.
Proof.
  intros Hins. pose proof (insert_user_cases _ _ _ _ _ _ _ Hins) as [_ Hu].
  assert (Hseq : auth_tokens_id_seq d' = auth_tokens_id_seq d).
  { revert Hins. unfold insert_user.
    destruct (_ || _ || _)%bool; intros H; by injection H as <-. }
  unfold select_user_id.
  destruct (find (fun u => String.eqb (u_username u) name) (users d'))
    as [u|] eqn:Hfind.
  - exists (u_id u). split; [done|]. split; [|done].
    apply find_some in Hfind as [Hin _]. apply existsb_exists.
    exists u. split; [done|apply Z.eqb_refl].
  - exfalso. rewrite Hu in Hfind.
    eapply find_none in Hfind.
    2:{ apply in_or_app. right. left. reflexivity. }
    cbn in Hfind. by rewrite String.eqb_refl in Hfind.
Qed.

(** X18.  A valid registration of a new user goes all the way: when the
    payload decodes and passes validation, the store answers every
    statement, bcrypt produces a hash, the username is free, no stored
    user has the same email (for a request without an email: no stored
    user has the empty email), the two sequences and the drawn token are
    fresh, then the session ends authenticated with the drawn token. *)
Theorem fresh_registration_authenticates (lib : Lib) (msg : gostruct)
    (st : St) (registration : gostruct) :
  Unmarshal (raw msg "payload") (zero registration_shape)
  = (registration, None) ->
  (3 <= String.length (str registration "username"))%nat ->
  (6 <= String.length (str registration "password"))%nat ->
  str registration "email" = "" \/
  util.IsValidEmail (str registration "email") = true ->
  faults (world st) = [] ->
  is_Some (GenerateFromPassword lib (str registration "password")) ->
  select_exists_username (db (world st)) (str registration "username")
  = false ->
  select_exists_email (db (world st)) (str registration "email") = false ->
  users_id_seq (db (world st)) ∉ u_id <$> users (db (world st)) ->
  auth_tokens_id_seq (db (world st))
    ∉ t_id <$> auth_tokens (db (world st)) ->
  uuid (world st) (drawn (world st))
    ∉ t_token <$> auth_tokens (db (world st)) ->
  let st' := snd (handleRegistration lib msg st) in
  authenticated (client st') = true /\
  username (client st') = str registration "username" /\
  authToken (client st') = uuid (world st) (drawn (world st)).
Proof.
  intros Hdec Hu Hp He Hfaults [hash Hhash] Hname Hemail Huid Htid Htok st'.
  remember (handleRegistration lib msg st) as out eqn:Hout.
  subst st'. unfold handleRegistration in Hout. rewrite Hdec in Hout.
  apply Nat.ltb_ge in Hu, Hp. rewrite Hu, Hp in Hout.
  assert (Hok : (negb (String.eqb (str registration "email") "")
                 && negb (util.IsValidEmail (str registration "email")))%bool
                = false).
  { destruct He as [-> | ->]; [done|]. apply andb_false_r. }
  rewrite Hok in Hout. clear Hdec Hu Hp He Hok.
  apply (not_in_existsb_false u_id Z.eqb) in Huid;
    [|intros x y; apply Z.eqb_eq].
  apply (not_in_existsb_false t_id Z.eqb) in Htid;
    [|intros x y; apply Z.eqb_eq].
  apply (not_in_existsb_false t_token String.eqb) in Htok;
    [|intros x y; apply String.eqb_eq].
  revert Hout Hhash Hname Hemail.
  generalize (str registration "username").
  generalize (str registration "password").
  generalize (str registration "email").
  intros Email Password Username.
  generalize (String.eqb Email "").
  intros no_email Hout Hhash Hname Hemail.
  destruct st as [cl w]. destruct w as [d tm fs uu dr se lg ca].
  cbn in Hfaults, Hname, Hemail, Huid, Htid, Htok. subst fs.
  assert (Hins : snd (insert_user d tm Username hash Email) = true).
  { unfold insert_user. by rewrite Huid, Hname, Hemail. }
  walk Hout.
  all: subst out; cbn in *; try congruence.
  all: simplify_eq.
  all: try match goal with
       | H : insert_user _ _ _ _ _ = (_, false) |- _ =>
           rewrite H in Hins; discriminate
       end.
  all: match goal with
       | H : insert_user _ _ _ _ _ = (?d0, true) |- _ =>
           destruct (select_user_id_after_insert _ _ _ _ _ _ H)
             as (z' & Hz & Hfk & Hseq);
           apply insert_user_cases in H as [Htoks0 _]
       end.
  all: try congruence.
  all: try (by repeat split).
  all: simplify_eq.
  all: match goal with
       | H : insert_token ?d0 _ ?z _ _ = (_, false) |- _ =>
           exfalso; revert H; unfold insert_token; cbv zeta;
           rewrite Hseq, Htoks0, Htid, Htok, Hfk; cbn; congruence
       end.
Qed.

Lemma fresh_registration_authenticates_witness :
  authenticated (client Scenario.alice_registered) = true /\
  authToken (client Scenario.alice_registered) = Scenario.ids 0.
Proof.
  destruct (fresh_registration_authenticates Scenario.lib0
    [("type", FString "register");
     ("payload", FRaw (Some (JObj [("username", JStr "alice");
                                   ("password", JStr "secretpw");
                                   ("email", JStr "")])))]
    (Scenario.connect "10.0.0.1:5000" Store.empty 1000)
    [("username", FString "alice"); ("password", FString "secretpw");
     ("email", FString "")]) as (Hauth & _ & Htok).
  - vm_compute. reflexivity.
  - vm_compute. lia.
  - vm_compute. lia.
  - left. reflexivity.
  - reflexivity.
  - vm_compute. eauto.
  - reflexivity.
  - reflexivity.
  - cbn. apply not_elem_of_nil.
  - cbn. apply not_elem_of_nil.
  - cbn. apply not_elem_of_nil.
  - split; [exact Hauth|exact Htok].
Defined.

End HandlerFacts.
